(** * The component registry of [runtime/codegen/registry.go]

    A shallow embedding of the registry of Service Weaver components
    ([register], [verifyRegistration], [allComponents], [find],
    [ComponentConfigValidator], [CallGraph]) and the properties of it that
    the specification states.

    Conventions of the embedding:
    - a Go [error] value is [option error] ([None] is the nil error);
    - a Go pointer [*Registration] is [ptr], dereferenced through the heap
      of the state; [&reg] allocates a fresh cell;
    - a Go map is [option (gmap K V)], [None] being the nil map;
    - a Go panic is the [Panic] outcome of [result];
    - the mutex of the registry is not modelled: every operation holds it
      from its first to its last step, so the operations are atomic and are
      embedded as sequential functions on the state. *)

From Stdlib Require Import String Ascii List.
From stdpp Require Import base option list gmap strings.

Local Open Scope string_scope.
Local Open Scope list_scope.
Local Open Scope stdpp_scope.

(** ** Outcomes of Go code: a normal return or a panic *)

Inductive result (A : Type) : Type :=
| Ok (a : A)
| Panic (msg : string).
Arguments Ok {A} a.
Arguments Panic {A} msg.

#[global] Instance result_ret : MRet result := λ A a, Ok a.
#[global] Instance result_bind : MBind result := λ A B f m,
  match m with
  | Ok a => f a
  | Panic msg => Panic msg
  end.

(** [for _, x := range xs { acc = body(acc, x) }] with a body that may panic. *)
Fixpoint foldM {A B : Type} (body : B → A → result B) (xs : list A) (acc : B)
  : result B :=
  match xs with
  | [] => Ok acc
  | x :: xs' => acc' ← body acc x; foldM body xs' acc'
  end.

(** ** Package reflect: the part of [reflect.Type] the registry uses *)

Module reflect.

Inductive Kind : Set :=
| Invalid | Bool | Int | Int8 | Int16 | Int32 | Int64
| Uint | Uint8 | Uint16 | Uint32 | Uint64 | Uintptr
| Float32 | Float64 | Complex64 | Complex128
| Array | Chan | Func | Interface | Map | Pointer | Slice
| String | Struct | UnsafePointer.

#[global] Instance Kind_eq_dec : EqDecision Kind.
Proof. solve_decision. Defined.

(** [reflect.StructField], with the two members that are read. *)
Record StructField (T : Type) : Type := mkStructField {
  Field_Name : string;
  Field_Type : T;
}.
Arguments mkStructField {T} _ _.
Arguments Field_Name {T} _.
Arguments Field_Type {T} _.

(** The runtime's type descriptors.  [rtype] is a non-nil [reflect.Type];
    two descriptors are equal when they are the same type. *)
Class TypeOps : Type := {
  rtype : Type;
  rtype_eq_dec : EqDecision rtype;
  rtype_countable : Countable rtype;
  Type_Kind : rtype → Kind;
  Type_PkgPath : rtype → string;
  Type_Name : rtype → string;
  Type_String : rtype → string;
  Type_fields : rtype → list (StructField rtype);
}.
#[global] Existing Instances rtype_eq_dec rtype_countable.

Section Methods.
Context `{TypeOps}.

(** [t.NumField()]: panics when [t] is not a struct type. *)
Definition NumField (t : rtype) : result nat :=
  if decide (Type_Kind t = Struct) then Ok (length (Type_fields t))
  else Panic "reflect: NumField of non-struct type".

(** [t.Field(i)]: panics when [t] is not a struct type or [i] is out
    of range. *)
Definition Field (t : rtype) (i : nat) : result (StructField rtype) :=
  if decide (Type_Kind t = Struct) then
    match Type_fields t !! i with
    | Some f => Ok f
    | None => Panic "reflect: Field index out of bounds"
    end
  else Panic "reflect: Field of non-struct type".
End Methods.

(** A [reflect.Type] interface value: nil or a descriptor. *)
Abbreviation Type_ := (option rtype) (only parsing).

End reflect.

(** ** Packages errors and fmt *)

(** [*errors.errorString] and [*fmt.wrapError]. *)
Inductive error : Type :=
| errorString (s : string)
| wrapError (msg : string) (err : error).

#[global] Instance error_eq_dec : EqDecision error.
Proof. solve_decision. Defined.

Definition errors_New (text : string) : error := errorString text.

Definition Error (e : error) : string :=
  match e with
  | errorString s => s
  | wrapError msg _ => msg
  end.

Definition errors_Unwrap (e : error) : option error :=
  match e with
  | errorString _ => None
  | wrapError _ err => Some err
  end.

(** Operands of the formatting calls of the registry. *)
Inductive operand `{reflect.TypeOps} : Type :=
| AString (s : string)
| AType (t : reflect.Type_)
| AError (e : error).

(** What the registry needs from outside its package: [strconv.Quote]
    (the verb [%q]), and the configuration machinery of
    [internal/config] and [runtime]. *)
Class Externals `{reflect.TypeOps} : Type := {
  strconv_Quote : string → string;
  (** the value [config.Config] returns when it is not nil *)
  ConfigValue : Type;
  (** [config.Config(reflect.New(t))]: nil when the struct [t] embeds no
      [weaver.WithConfig] *)
  config_Config : reflect.rtype → option ConfigValue;
  (** [runtime.ParseConfigSection(key, shortKey, sections, dst)] *)
  runtime_ParseConfigSection :
    string → string → gmap string string → ConfigValue → option error;
}.

Section Fmt.
Context `{Externals}.

(** [%v] (and [%s]) of an operand; a [reflect.Type] prints through its
    [String] method, a nil interface as [<nil>]. *)
Definition fmt_v (a : operand) : string :=
  match a with
  | AString s => s
  | AType (Some t) => reflect.Type_String t
  | AType None => "<nil>"
  | AError e => Error e
  end.

Definition fmt_verb (verb : ascii) (a : operand) : string :=
  match verb, a with
  | "q"%char, AString s => strconv_Quote s
  | _, _ => fmt_v a
  end.

(** [fmt.Sprintf] for the verbs [%s], [%v], [%q] and [%w]. *)
Fixpoint fmt_Sprintf (format : string) (a : list operand) : string :=
  match format with
  | EmptyString => EmptyString
  | String "%"%char (String verb rest) =>
      match a with
      | x :: a' => fmt_verb verb x +:+ fmt_Sprintf rest a'
      | [] => "%!" +:+ String verb "(MISSING)" +:+ fmt_Sprintf rest []
      end
  | String c rest => String c (fmt_Sprintf rest a)
  end.

(** The operand of the first [%w] of the format, when it is an error. *)
Fixpoint wrapped (format : string) (a : list operand) : option error :=
  match format with
  | EmptyString => None
  | String "%"%char (String verb rest) =>
      match a with
      | x :: a' =>
          match verb, x with
          | "w"%char, AError e => Some e
          | _, _ => wrapped rest a'
          end
      | [] => None
      end
  | String _ rest => wrapped rest a
  end.

(** [fmt.Errorf]: an [errorString], or a [wrapError] when the format has
    a [%w] with an error operand. *)
Definition fmt_Errorf (format : string) (a : list operand) : error :=
  match wrapped format a with
  | Some e => wrapError (fmt_Sprintf format a) e
  | None => errors_New (fmt_Sprintf format a)
  end.
End Fmt.

(** ** Package codegen: the registry *)

(** A non-nil function value.  The registry stores stub factories and
    compares them with nil; it never calls them. *)
Inductive funcval : Set := Closure (code : positive).

Section Registry.
Context `{Externals}.

(** [Registration] is the configuration needed to register a component. *)
Record Registration : Type := mkRegistration {
  Name : string;
  Iface : reflect.Type_;
  Impl : reflect.Type_;
  Routed : bool;
  Listeners : list string;
  NoRetry : list Z;
  LocalStubFn : option funcval;
  ClientStubFn : option funcval;
  ServerStubFn : option funcval;
  ReflectStubFn : option funcval;
  RefData : string;
}.

(** A [*Registration]: nil or the address of a heap cell. *)
Inductive ptr : Set :=
| nil
| addr (l : nat).

#[global] Instance ptr_eq_dec : EqDecision ptr.
Proof. solve_decision. Defined.

(** [registry]; [m sync.Mutex] is left out (see the header). *)
Record registry : Type := mkRegistry {
  components : option (gmap reflect.Type_ ptr);
  byName : option (gmap string ptr);
}.

(** The program state: the heap of [Registration] cells and the package
    variable [globalRegistry]. *)
Record state : Type := mkState {
  heap : list Registration;
  globalRegistry : registry;
}.

(** [var globalRegistry registry]: the zero value, both maps nil. *)
Definition init : state :=
  {| heap := [];
     globalRegistry := {| components := None; byName := None |} |}.

(** [m[k]] with the comma-ok form: reading a nil map finds nothing. *)
Definition map_index {K V : Type} `{Countable K}
    (m : option (gmap K V)) (k : K) : option V :=
  match m with
  | Some g => g !! k
  | None => None
  end.

(** [*p].  An address outside the heap does not exist in Go; the
    embedding panics there as well, and the invariant [wf] below rules it
    out for the pointers of the registry. *)
Definition deref (σ : state) (p : ptr) : result Registration :=
  match p with
  | nil => Panic "invalid memory address or nil pointer dereference"
  | addr l =>
      match heap σ !! l with
      | Some r => Ok r
      | None => Panic "invalid memory address or nil pointer dereference"
      end
  end.

(** [verifyRegistration] checks the structure of a registration; the
    nil tests guard the [Kind] calls. *)
Definition verifyRegistration (reg : Registration) : option error :=
  match Iface reg with
  | None => Some (errors_New "missing component type")
  | Some iface =>
    if decide (reflect.Type_Kind iface ≠ reflect.Interface) then
      Some (errors_New "component type is not an interface")
    else
      match Impl reg with
      | None => Some (errors_New "missing implementation type")
      | Some impl =>
        if decide (reflect.Type_Kind impl ≠ reflect.Struct) then
          Some (errors_New "implementation type is not a struct")
        else if decide (LocalStubFn reg = None) then
          Some (errors_New "nil LocalStubFn")
        else if decide (ClientStubFn reg = None) then
          Some (errors_New "nil ClientStubFn")
        else if decide (ServerStubFn reg = None) then
          Some (errors_New "nil ServerStubFn")
        else None
      end
  end.

(** [register] registers a component in the global registry. *)
Definition register (reg : Registration) (σ : state)
  : result (option error * state) :=
  match verifyRegistration reg with
  | Some err =>
      Ok (Some (fmt_Errorf "Register(%q): %w"
                  [AString (Name reg); AError err]), σ)
  | None =>
      let r := globalRegistry σ in
      match map_index (components r) (Iface reg) with
      | Some old =>
          old_ ← deref σ old;
          Ok (Some (fmt_Errorf
                "component %s already registered for type %v when registering %v"
                [AString (Name reg); AType (Impl old_); AType (Impl reg)]),
              σ)
      | None =>
          (* if r.components == nil { r.components = map[...]{} } *)
          let components' := default ∅ (components r) in
          (* if r.byName == nil { r.byName = map[...]{} } *)
          let byName' := default ∅ (byName r) in
          (* ptr := &reg *)
          let ptr := addr (length (heap σ)) in
          Ok (None,
              {| heap := heap σ ++ [reg];
                 globalRegistry :=
                   {| components := Some (<[Iface reg := ptr]> components');
                      byName := Some (<[Name reg := ptr]> byName') |} |})
      end
  end.

(** [Register] panics when [register] fails. *)
Definition Register (reg : Registration) (σ : state) : result state :=
  '(err, σ') ← register reg σ;
  match err with
  | Some e => Panic (Error e)
  | None => Ok σ'
  end.

(** The order in which a [range] loop visits a map is unspecified: any
    list holding each entry of the map once is a possible order. *)
Definition range_order {K V : Type} `{Countable K}
    (m : option (gmap K V)) (kvs : list (K * V)) : Prop :=
  kvs ≡ₚ map_to_list (default ∅ m).

(** The loop of [allComponents], for the visiting order [kvs]. *)
Definition allComponents_range (kvs : list (reflect.Type_ * ptr)) : list ptr :=
  fold_left (λ components kv, components ++ [kv.2]) kvs [].

(** [allComponents] returns all of the registered components. *)
Definition allComponents (σ : state) (regs : list ptr) : Prop :=
  ∃ kvs, range_order (components (globalRegistry σ)) kvs
         ∧ regs = allComponents_range kvs.

(** One run of [allComponents], for the visiting order of [map_to_list]. *)
Definition allComponents_run (σ : state) : list ptr :=
  allComponents_range
    (map_to_list (default ∅ (components (globalRegistry σ)))).

(** [Registered] returns the components registered with [Register]. *)
Definition Registered (σ : state) (regs : list ptr) : Prop :=
  allComponents σ regs.

(** [find]: the entry of the name index and whether there is one. *)
Definition find (path : string) (σ : state) : ptr * bool :=
  match map_index (byName (globalRegistry σ)) path with
  | Some reg => (reg, true)
  | None => (nil, false)
  end.

(** [Find] returns the registration of the named component. *)
Definition Find (name : string) (σ : state) : ptr * bool := find name σ.

(** [ComponentConfigValidator] checks that [cfg] is a valid configuration
    for the component named [path]. *)
Definition ComponentConfigValidator (path cfg : string) (σ : state)
  : result (option error) :=
  let '(info, ok) := find path σ in
  if negb ok then Ok None
  else
    info_ ← deref σ info;
    match Impl info_ with
    | None => Panic "reflect: New(nil)"
    | Some impl =>
        match config_Config impl with
        | None =>
            Ok (Some (fmt_Errorf
                  "unexpected configuration for component %v that does not support configuration (add a weaver.WithConfig[configType] embedded field to %v)"
                  [AString (Name info_); AType (Iface info_)]))
        | Some componentConfig =>
            let Sections : gmap string string := {[ path := cfg ]} in
            match runtime_ParseConfigSection path "" Sections componentConfig with
            | Some err =>
                Ok (Some (fmt_Errorf "%v: bad config: %w"
                            [AType (Iface info_); AError err]))
            | None => Ok None
            end
        end
    end.

(** [CallEdge]: the [Caller] component uses the [Callee] component. *)
Record CallEdge : Type := mkCallEdge {
  Caller : reflect.Type_;
  Callee : reflect.Type_;
}.

#[global] Instance CallEdge_eq_dec : EqDecision CallEdge.
Proof. solve_decision. Defined.

(** [strings.HasPrefix] *)
Definition strings_HasPrefix (s prefix : string) : bool :=
  String.prefix prefix s.

(** The test of [CallGraph] for a field of type [weaver.Ref[T]], its
    conjuncts evaluated from left to right. *)
Definition isRef (ref : reflect.rtype) : result bool :=
  if String.eqb (reflect.Type_PkgPath ref) "github.com/ServiceWeaver/weaver"
     && strings_HasPrefix (reflect.Type_Name ref) "Ref["
     && bool_decide (reflect.Type_Kind ref = reflect.Struct)
  then
    n ← reflect.NumField ref;
    if Nat.eqb n 1 then
      f ← reflect.Field ref 0;
      Ok (String.eqb (reflect.Field_Name f) "value")
    else Ok false
  else Ok false.

(** The body of the inner loop of [CallGraph], for the field [i]; [res] is
    the slice [result] so far. *)
Definition CallGraph_field (reg : Registration) (impl : reflect.rtype)
    (res : list CallEdge) (i : nat) : result (list CallEdge) :=
  fld ← reflect.Field impl i;
  let ref := reflect.Field_Type fld in
  b ← isRef ref;
  if b : bool then
    f0 ← reflect.Field ref 0;
    Ok (res ++ [ {| Caller := Iface reg;
                       Callee := Some (reflect.Field_Type f0) |} ])
  else Ok res.

(** The body of the outer loop of [CallGraph]. *)
Definition CallGraph_reg (σ : state) (res : list CallEdge) (p : ptr)
  : result (list CallEdge) :=
  reg ← deref σ p;
  match Impl reg with
  | None => Panic "invalid memory address or nil pointer dereference"
  | Some impl =>
      n ← reflect.NumField impl;
      foldM (CallGraph_field reg impl) (seq 0 n) res
  end.

(** [CallGraph] over the slice [regs] that [Registered] returned. *)
Definition CallGraph_range (σ : state) (regs : list ptr)
  : result (list CallEdge) :=
  foldM (CallGraph_reg σ) regs [].

(** [CallGraph] returns the component call graph. *)
Definition CallGraph (σ : state) (out : result (list CallEdge)) : Prop :=
  ∃ regs, Registered σ regs ∧ out = CallGraph_range σ regs.

(** One run of [CallGraph], on the slice of [allComponents_run]. *)
Definition CallGraph_run (σ : state) : result (list CallEdge) :=
  CallGraph_range σ (allComponents_run σ).

(** A sequence of [register] calls, whatever each one returns. *)
Fixpoint run (cands : list Registration) (σ : state) : result state :=
  match cands with
  | [] => Ok σ
  | reg :: cands' => '(_, σ') ← register reg σ; run cands' σ'
  end.

(** A sequence of [Register] calls. *)
Definition RegisterAll (cands : list Registration) (σ : state)
  : result state :=
  foldM (λ σ reg, Register reg σ) cands σ.
End Registry.

(** ** A small program: three components

    [A] has no dependency, [B] holds one [weaver.Ref[A]], [C] holds two;
    [D] is a second interface whose generated code reuses the name of [A].
    Type descriptors are numbered. *)

Module Example.

Definition tA : nat := 0.      (* interface main.A *)
Definition ta : nat := 1.      (* struct main.a *)
Definition tB : nat := 2.      (* interface main.B *)
Definition tb : nat := 3.      (* struct main.b { weaver.Ref[A] } *)
Definition tRefA : nat := 4.   (* struct weaver.Ref[main.A] { value A } *)
Definition tC : nat := 5.      (* interface main.C *)
Definition tc : nat := 6.      (* struct main.c { x, y weaver.Ref[A]; n int } *)
Definition tD : nat := 7.      (* interface main.D *)
Definition tint : nat := 8.    (* int *)

Definition kinds (t : nat) : reflect.Kind :=
  match t with
  | 0 | 2 | 5 | 7 => reflect.Interface
  | 1 | 3 | 4 | 6 => reflect.Struct
  | _ => reflect.Int
  end.

Definition pkgPaths (t : nat) : string :=
  match t with
  | 4 => "github.com/ServiceWeaver/weaver"
  | 8 => ""
  | _ => "main"
  end.

Definition typeNames (t : nat) : string :=
  match t with
  | 0 => "A" | 1 => "a" | 2 => "B" | 3 => "b" | 4 => "Ref[main.A]"
  | 5 => "C" | 6 => "c" | 7 => "D" | _ => "int"
  end.

Definition strs (t : nat) : string :=
  match t with
  | 4 => "weaver.Ref[main.A]"
  | 8 => "int"
  | _ => "main." +:+ typeNames t
  end.

Definition fieldsOf (t : nat) : list (reflect.StructField nat) :=
  match t with
  | 3 => [reflect.mkStructField "a" tRefA]
  | 4 => [reflect.mkStructField "value" tA]
  | 6 => [reflect.mkStructField "x" tRefA; reflect.mkStructField "y" tRefA;
          reflect.mkStructField "n" tint]
  | _ => []
  end.

#[export] Instance types : reflect.TypeOps := {|
  reflect.rtype := nat;
  reflect.Type_Kind := kinds;
  reflect.Type_PkgPath := pkgPaths;
  reflect.Type_Name := typeNames;
  reflect.Type_String := strs;
  reflect.Type_fields := fieldsOf;
|}.

Definition dquote : string := String (ascii_of_nat 34) EmptyString.

(** [strconv.Quote] on strings that need no escape; no component has a
    configuration. *)
#[export] Instance externals : Externals := {|
  strconv_Quote := λ s, dquote +:+ s +:+ dquote;
  ConfigValue := unit;
  config_Config := λ _, None;
  runtime_ParseConfigSection := λ _ _ _ _, None;
|}.

Definition stub (n : positive) : option funcval := Some (Closure n).

Definition component (name : string) (iface impl : nat) : Registration :=
  {| Name := name; Iface := Some iface; Impl := Some impl;
     Routed := false; Listeners := []; NoRetry := [];
     LocalStubFn := stub 1; ClientStubFn := stub 2; ServerStubFn := stub 3;
     ReflectStubFn := stub 4; RefData := "" |}.

Definition regA : Registration := component "main/A" tA ta.
Definition regB : Registration := component "main/B" tB tb.
Definition regC : Registration := component "main/C" tC tc.
(** a second implementation for the interface of [regA] *)
Definition regA' : Registration := component "main/A2" tA tb.
(** another interface under the name of [regA] *)
Definition regD : Registration := component "main/A" tD ta.

Definition withLocal (f : option funcval) (r : Registration) : Registration :=
  {| Name := Name r; Iface := Iface r; Impl := Impl r; Routed := Routed r;
     Listeners := Listeners r; NoRetry := NoRetry r;
     LocalStubFn := f; ClientStubFn := ClientStubFn r;
     ServerStubFn := ServerStubFn r; ReflectStubFn := ReflectStubFn r;
     RefData := RefData r |}.

Definition withReflect (f : option funcval) (r : Registration) : Registration :=
  {| Name := Name r; Iface := Iface r; Impl := Impl r; Routed := Routed r;
     Listeners := Listeners r; NoRetry := NoRetry r;
     LocalStubFn := LocalStubFn r; ClientStubFn := ClientStubFn r;
     ServerStubFn := ServerStubFn r; ReflectStubFn := f;
     RefData := RefData r |}.

(** [regA] without a local stub factory, and without a reflective one. *)
Definition regNoLocal : Registration := withLocal None regA.
Definition regNoReflect : Registration := withReflect None regA.
(** a candidate that fails four checks: no implementation type and no
    local, client and server stub factory *)
Definition regBad : Registration :=
  {| Name := "main/A"; Iface := Some tA; Impl := None;
     Routed := false; Listeners := []; NoRetry := [];
     LocalStubFn := None; ClientStubFn := None; ServerStubFn := None;
     ReflectStubFn := None; RefData := "" |}.

(** A second environment, in which the struct [main.b] embeds a
    configuration: its parser refuses the text [bad]. *)
Definition externalsWithConfig : @Externals types := {|
  strconv_Quote := λ s, dquote +:+ s +:+ dquote;
  ConfigValue := unit;
  config_Config := λ t, if Nat.eqb t tb then Some tt else None;
  runtime_ParseConfigSection := λ key _ sections _,
    if bool_decide (sections !! key = Some "bad")
    then Some (errorString "unknown field")
    else None;
|}.

End Example.

(** ** Notions of the specification *)

Section Spec.
Context `{Externals}.

(** The two indexes, read as maps (a nil map reads as the empty map). *)
Definition comps (σ : state) : gmap reflect.Type_ ptr :=
  default ∅ (components (globalRegistry σ)).

Definition names (σ : state) : gmap string ptr :=
  default ∅ (byName (globalRegistry σ)).

(** The invariant of the registry: the interface index holds the addresses
    of valid registrations under their interface, the name index holds
    addresses of the interface index under their name, and the name of
    every registered component has an entry. *)
Record wf (σ : state) : Prop := mkWf {
  wf_comps : ∀ k p, comps σ !! k = Some p →
    ∃ l r, p = addr l ∧ heap σ !! l = Some r ∧ Iface r = k
           ∧ verifyRegistration r = None;
  wf_names : ∀ n p, names σ !! n = Some p →
    ∃ l r, p = addr l ∧ heap σ !! l = Some r ∧ Name r = n
           ∧ comps σ !! Iface r = Some p;
  wf_named : ∀ k l r, comps σ !! k = Some (addr l) → heap σ !! l = Some r →
    is_Some (names σ !! Name r);
  wf_heap : ∀ r, r ∈ heap σ → verifyRegistration r = None;
}.

(** The two indexes hold the same instances: an address is an entry of one
    iff it is an entry of the other. *)
Definition in_sync (σ : state) : Prop :=
  ∀ p, (∃ k, comps σ !! k = Some p) ↔ (∃ n, names σ !! n = Some p).

(** No two entries of the interface index have the same name. *)
Definition names_distinct (σ : state) : Prop :=
  ∀ k k' l l' r r',
    comps σ !! k = Some (addr l) → comps σ !! k' = Some (addr l') →
    heap σ !! l = Some r → heap σ !! l' = Some r' →
    Name r = Name r' → l = l'.

(** The registered components: the registrations the interface index
    points to. *)
Definition pointee (σ : state) (p : ptr) : option Registration :=
  match p with
  | nil => None
  | addr l => heap σ !! l
  end.

Definition registered (σ : state) : list Registration :=
  omap (λ kv, pointee σ kv.2) (map_to_list (comps σ)).

(** A dependency reference: a field whose type is the wrapper
    [weaver.Ref[T]], a struct of package weaver that holds exactly one
    value, its field [value]; the type of [value] is the interface
    referred to. *)
Definition dependencyRef (t callee : reflect.rtype) : Prop :=
  reflect.Type_PkgPath t = "github.com/ServiceWeaver/weaver"
  ∧ (∃ rest, reflect.Type_Name t = "Ref[" +:+ rest)
  ∧ reflect.Type_Kind t = reflect.Struct
  ∧ ∃ f, reflect.Type_fields t = [f]
         ∧ reflect.Field_Name f = "value"
         ∧ reflect.Field_Type f = callee.

(** [dependencyRef], computed. *)
Definition refTarget (t : reflect.rtype) : option reflect.rtype :=
  if String.eqb (reflect.Type_PkgPath t) "github.com/ServiceWeaver/weaver"
     && String.prefix "Ref[" (reflect.Type_Name t)
     && bool_decide (reflect.Type_Kind t = reflect.Struct)
  then
    match reflect.Type_fields t with
    | [f] => if String.eqb (reflect.Field_Name f) "value"
             then Some (reflect.Field_Type f) else None
    | _ => None
    end
  else None.

(** The interfaces a struct type refers to, one per dependency-reference
    field, in the order of the fields. *)
Definition dependencies (impl : reflect.rtype) : list reflect.rtype :=
  omap (λ f, refTarget (reflect.Field_Type f)) (reflect.Type_fields impl).

(** The edge from the component of interface [caller] to the interface
    [callee]. *)
Definition edge (caller : reflect.Type_) (callee : reflect.rtype) : CallEdge :=
  {| Caller := caller; Callee := Some callee |}.

(** The edges of a component: one per dependency-reference field of its
    implementation. *)
Definition edgesOf (r : Registration) : list CallEdge :=
  match Impl r with
  | Some impl => edge (Iface r) <$> dependencies impl
  | None => []
  end.

(** The checks of the validator in their order: what makes a candidate
    fail the check, and the error of the check. *)
Definition has_kind (k : reflect.Kind) (t : reflect.Type_) : Prop :=
  ∃ d, t = Some d ∧ reflect.Type_Kind d = k.

#[global] Instance has_kind_dec k t : Decision (has_kind k t).
Proof.
  refine (match t with
          | Some d => cast_if (decide (reflect.Type_Kind d = k))
          | None => right _
          end); unfold has_kind; [eauto | | ].
  - intros (d' & [= <-] & ?). contradiction.
  - intros (d' & [=] & ?).
Defined.

Definition checks : list ((Registration → bool) * string) :=
  [ (λ reg, bool_decide (Iface reg = None), "missing component type");
    (λ reg, bool_decide (¬ has_kind reflect.Interface (Iface reg)),
       "component type is not an interface");
    (λ reg, bool_decide (Impl reg = None), "missing implementation type");
    (λ reg, bool_decide (¬ has_kind reflect.Struct (Impl reg)),
       "implementation type is not a struct");
    (λ reg, bool_decide (LocalStubFn reg = None), "nil LocalStubFn");
    (λ reg, bool_decide (ClientStubFn reg = None), "nil ClientStubFn");
    (λ reg, bool_decide (ServerStubFn reg = None), "nil ServerStubFn") ].

(** The error of the first check of [cs] that [reg] fails. *)
Fixpoint first_failure (cs : list ((Registration → bool) * string))
    (reg : Registration) : option error :=
  match cs with
  | [] => None
  | (fails, msg) :: cs' =>
      if fails reg then Some (errors_New msg) else first_failure cs' reg
  end.

(** [reg] with another name. *)
Definition withName (n : string) (reg : Registration) : Registration :=
  {| Name := n; Iface := Iface reg; Impl := Impl reg; Routed := Routed reg;
     Listeners := Listeners reg; NoRetry := NoRetry reg;
     LocalStubFn := LocalStubFn reg; ClientStubFn := ClientStubFn reg;
     ServerStubFn := ServerStubFn reg; ReflectStubFn := ReflectStubFn reg;
     RefData := RefData reg |}.

(** The state after a registration that is accepted. *)
Definition stored (reg : Registration) (σ : state) : state :=
  {| heap := heap σ ++ [reg];
     globalRegistry :=
       {| components := Some (<[Iface reg := addr (length (heap σ))]> (comps σ));
          byName := Some (<[Name reg := addr (length (heap σ))]> (names σ)) |} |}.

(** [sub] occurs in [s]. *)
Definition mentions (s sub : string) : Prop :=
  ∃ pre post, s = pre +:+ sub +:+ post.

(** The candidates of a sequence of [register] calls that end up in the
    registry: those that pass the validator and whose interface is not
    the interface of a candidate accepted before; [acc] holds the ones
    accepted so far, in the order of their acceptance. *)
Fixpoint accepted_after (acc cands : list Registration) : list Registration :=
  match cands with
  | [] => acc
  | c :: cands' =>
      if bool_decide (verifyRegistration c = None)
         && bool_decide (Iface c ∉ Iface <$> acc)
      then accepted_after (acc ++ [c]) cands'
      else accepted_after acc cands'
  end.

Definition accepted (cands : list Registration) : list Registration :=
  accepted_after [] cands.

(** The entries of the interface index for the heap [h]: the cell [l]
    under the interface of its registration. *)
Definition index_of (h : list Registration) : list (reflect.Type_ * ptr) :=
  imap (λ l r, (Iface r, addr l)) h.

(** What a sequence of [register] calls keeps besides [wf]: every heap
    cell is an entry of the interface index, an entry of the name index is
    the last cell with that name, and the name index is not the larger
    one. *)
Record indexed (σ : state) : Prop := mkIndexed {
  indexed_comps : map_to_list (comps σ) ≡ₚ index_of (heap σ);
  indexed_last : ∀ n l, names σ !! n = Some (addr l) →
    ∀ l' r', (l < l')%nat → heap σ !! l' = Some r' → Name r' ≠ n;
  indexed_size : (size (names σ) ≤ size (comps σ))%nat;
}.

(** The error of [ComponentConfigValidator] for a configuration that does
    not parse: the parser's error [err], wrapped. *)
Definition badConfig (iface : reflect.Type_) (err : error) : error :=
  wrapError (fmt_v (AType iface) +:+ ": bad config: " +:+ Error err) err.

End Spec.

(** * Properties *)

Section Proofs.
Context `{Externals}.
Implicit Types (σ : state) (reg r : Registration) (p : ptr).

(** ** Strings and formatting *)

Lemma append_empty_r (s : string) : s +:+ "" = s.
Proof.
  induction s as [|c s IH]; [done |].
  change (String c (s +:+ "") = String c s). by f_equal.
Qed.

Lemma append_assoc (s1 s2 s3 : string) :
  (s1 +:+ s2) +:+ s3 = s1 +:+ (s2 +:+ s3).
Proof.
  induction s1 as [|c s1 IH]; [done |].
  change (String c ((s1 +:+ s2) +:+ s3) = String c (s1 +:+ (s2 +:+ s3))).
  by f_equal.
Qed.

Lemma prefix_spec (pre s : string) :
  String.prefix pre s = true ↔ ∃ rest, s = pre +:+ rest.
Proof.
  revert s. induction pre as [|c pre IH]; intros s.
  - split; [intros _; by exists s | intros _; by destruct s].
  - destruct s as [|d s].
    + split; [intros [=] | intros [rest [=]]].
    + change (String.prefix (String c pre) (String d s))
        with (if ascii_dec c d then String.prefix pre s else false).
      destruct (ascii_dec c d) as [->|Hne].
      * rewrite IH. split; intros [rest Hr]; exists rest.
        -- by rewrite Hr.
        -- change (String d s = String d (pre +:+ rest)) in Hr. congruence.
      * split; [intros [=] |]. intros [rest Hr].
        change (String d s = String c (pre +:+ rest)) in Hr. congruence.
Qed.

Lemma mentions_intro (pre sub post : string) :
  mentions (pre +:+ sub +:+ post) sub.
Proof. by exists pre, post. Qed.

(** ** The three outcomes of [register] *)

Lemma map_index_components σ k :
  map_index (components (globalRegistry σ)) k = comps σ !! k.
Proof.
  unfold comps, map_index. destruct (components _); simpl; [done |].
  by rewrite lookup_empty.
Qed.

Lemma map_index_byName σ n :
  map_index (byName (globalRegistry σ)) n = names σ !! n.
Proof.
  unfold names, map_index. destruct (byName _); simpl; [done |].
  by rewrite lookup_empty.
Qed.

Lemma register_invalid reg σ e :
  verifyRegistration reg = Some e →
  register reg σ
  = Ok (Some (wrapError
                ("Register(" +:+ strconv_Quote (Name reg) +:+ "): " +:+ Error e)
                e), σ).
Proof.
  intros Hv. unfold register. rewrite Hv. unfold fmt_Errorf. cbn.
  by rewrite append_empty_r.
Qed.

Lemma register_conflict reg σ l old :
  verifyRegistration reg = None →
  comps σ !! Iface reg = Some (addr l) →
  heap σ !! l = Some old →
  register reg σ
  = Ok (Some (errorString
                ("component " +:+ Name reg +:+ " already registered for type "
                 +:+ fmt_v (AType (Impl old)) +:+ " when registering "
                 +:+ fmt_v (AType (Impl reg)))), σ).
Proof.
  intros Hv Hk Hl. unfold register.
  rewrite Hv, map_index_components, Hk. simpl. rewrite Hl. simpl.
  unfold fmt_Errorf. cbn. by rewrite append_empty_r.
Qed.

Lemma register_fresh reg σ :
  verifyRegistration reg = None →
  comps σ !! Iface reg = None →
  register reg σ = Ok (None, stored reg σ).
Proof.
  intros Hv Hk. unfold register.
  by rewrite Hv, map_index_components, Hk.
Qed.

(** [register] returns nil only through its last branch. *)
Lemma register_nil_inv reg σ σ' :
  register reg σ = Ok (None, σ') →
  verifyRegistration reg = None ∧ comps σ !! Iface reg = None
  ∧ σ' = stored reg σ.
Proof.
  unfold register. destruct (verifyRegistration reg) eqn:Hv; [done |].
  rewrite map_index_components.
  destruct (comps σ !! Iface reg) as [old|] eqn:Hk.
  - destruct (deref σ old); simpl; done.
  - intros [= <-]. done.
Qed.
(** ** The invariant *)

Lemma wf_init : wf init.
Proof. split; unfold comps, names; simpl; intros *; by rewrite ?lookup_empty, ?elem_of_nil. Qed.

Lemma heap_stored_old reg σ l r :
  heap σ !! l = Some r → heap (stored reg σ) !! l = Some r.
Proof. intros Hl. simpl. by apply lookup_app_l_Some. Qed.

Lemma heap_stored_new reg σ :
  heap (stored reg σ) !! length (heap σ) = Some reg.
Proof. simpl. by rewrite lookup_app_r, Nat.sub_diag by lia. Qed.

Lemma comps_stored reg σ :
  comps (stored reg σ) = <[Iface reg := addr (length (heap σ))]> (comps σ).
Proof. done. Qed.

Lemma names_stored reg σ :
  names (stored reg σ) = <[Name reg := addr (length (heap σ))]> (names σ).
Proof. done. Qed.

Lemma wf_stored reg σ :
  wf σ → verifyRegistration reg = None → comps σ !! Iface reg = None →
  wf (stored reg σ).
Proof.
  intros [Hc Hn Hnd Hh] Hv Hfresh.
  assert (Hcs : ∀ k p, comps (stored reg σ) !! k = Some p →
            (k = Iface reg ∧ p = addr (length (heap σ)))
            ∨ (k ≠ Iface reg ∧ comps σ !! k = Some p)).
  { intros k p. rewrite comps_stored, lookup_insert.
    case_decide; [intros [= <-]; by left | by right]. }
  split.
  - intros k p [[-> ->]|[Hne Hk]]%Hcs.
    + exists (length (heap σ)), reg. by rewrite heap_stored_new.
    + destruct (Hc _ _ Hk) as (l & r & -> & Hl & Hi & Hr).
      exists l, r. eauto using heap_stored_old.
  - intros n p. rewrite names_stored, comps_stored, lookup_insert.
    case_decide as Hn'.
    + intros [= <-]. exists (length (heap σ)), reg.
      rewrite heap_stored_new, lookup_insert_eq. done.
    + intros Hp. destruct (Hn _ _ Hp) as (l & r & -> & Hl & Hnm & Hk).
      exists l, r. repeat split; eauto using heap_stored_old.
      rewrite lookup_insert_ne; [done | congruence].
  - intros k l r [[-> [= ->]]|[Hne Hk]]%Hcs Hl.
    + rewrite heap_stored_new in Hl. injection Hl as <-.
      rewrite names_stored, lookup_insert_eq. eauto.
    + destruct (Hc _ _ Hk) as (l' & r' & [= <-] & Hl' & Hi & Hr).
      rewrite (heap_stored_old reg _ _ _ Hl') in Hl. injection Hl as <-.
      rewrite names_stored, lookup_insert.
      case_decide; [eauto | by eapply Hnd].
  - intros r. simpl. rewrite elem_of_app, list_elem_of_singleton.
    intros [?| ->]; eauto.
Qed.

(** On a state that satisfies the invariant [register] returns, and the
    state it leaves is the old one or the old one with [reg] stored. *)
Lemma register_wf reg σ :
  wf σ →
  ∃ err σ', register reg σ = Ok (err, σ') ∧ wf σ'
    ∧ ((is_Some err ∧ σ' = σ)
       ∨ (err = None ∧ σ' = stored reg σ ∧ verifyRegistration reg = None
          ∧ comps σ !! Iface reg = None)).
Proof.
  intros Hwf. destruct (verifyRegistration reg) as [e|] eqn:Hv.
  - eexists _, σ. rewrite (register_invalid _ _ _ Hv). eauto 6.
  - destruct (comps σ !! Iface reg) as [p|] eqn:Hk.
    + destruct (wf_comps _ Hwf _ _ Hk) as (l & old & -> & Hl & _).
      eexists _, σ. rewrite (register_conflict _ _ _ _ Hv Hk Hl). eauto 6.
    + exists None, (stored reg σ). rewrite (register_fresh _ _ Hv Hk).
      split; [done |]. split; [by apply wf_stored |]. right. done.
Qed.

Lemma run_wf cands σ : wf σ → ∃ σ', run cands σ = Ok σ' ∧ wf σ'.
Proof.
  revert σ. induction cands as [|reg cands IH]; intros σ Hwf; simpl.
  - eauto.
  - destruct (register_wf reg σ Hwf) as (err & σ1 & -> & Hwf1 & _). simpl.
    by apply IH.
Qed.

Lemma run_init_wf cands : ∃ σ, run cands init = Ok σ ∧ wf σ.
Proof. apply run_wf, wf_init. Qed.

(** ** The validator *)

Lemma verifyRegistration_None reg :
  verifyRegistration reg = None ↔
  ∃ iface impl,
    Iface reg = Some iface ∧ reflect.Type_Kind iface = reflect.Interface
    ∧ Impl reg = Some impl ∧ reflect.Type_Kind impl = reflect.Struct
    ∧ is_Some (LocalStubFn reg) ∧ is_Some (ClientStubFn reg)
    ∧ is_Some (ServerStubFn reg).
Proof.
  unfold verifyRegistration. split.
  - destruct (Iface reg) as [iface|]; [|done].
    case_decide as Hi; [done |]. try apply dec_stable in Hi.
    destruct (Impl reg) as [impl|]; [|done].
    case_decide as Hm; [done |]. try apply dec_stable in Hm.
    repeat case_decide; try done. intros _.
    exists iface, impl. rewrite <-!not_eq_None_Some. done.
  - intros (iface & impl & -> & Hi & -> & Hm & Hl & Hc & Hs).
    rewrite <-not_eq_None_Some in Hl, Hc, Hs.
    repeat case_decide; done.
Qed.

Lemma first_failure_app cs1 cs2 reg :
  Forall (λ c, c.1 reg = false) cs1 →
  first_failure (cs1 ++ cs2) reg = first_failure cs2 reg.
Proof.
  induction 1 as [|[fails msg] cs1 Hc _ IH]; simpl in *; [done |].
  by rewrite Hc.
Qed.

Lemma verifyRegistration_checks reg :
  verifyRegistration reg = first_failure checks reg.
Proof.
  unfold verifyRegistration, checks, first_failure, has_kind.
  destruct (Iface reg) as [iface|]; [|done].
  rewrite bool_decide_eq_false_2 by done.
  case_decide as Hi.
  { rewrite bool_decide_eq_true_2; [done |]. intros (d & [= <-] & ?). done. }
  try apply dec_stable in Hi. rewrite bool_decide_eq_false_2 by naive_solver.
  destruct (Impl reg) as [impl|]; [|done].
  rewrite (bool_decide_eq_false_2 (Some impl = None)) by done.
  case_decide as Hm.
  { rewrite bool_decide_eq_true_2; [done |]. intros (d & [= <-] & ?). done. }
  try apply dec_stable in Hm. rewrite bool_decide_eq_false_2 by naive_solver.
  repeat (case_decide; case_bool_decide; try done).
Qed.

(** C9: the validator reports the error of the first check, in the order
    interface present, interface of kind interface, implementation
    present, implementation of kind struct, local, client and server stub
    factory present, that the candidate fails, with a message that names
    the field; it returns nil exactly when no check fails. *)
Theorem verifyRegistration_fail_fast reg :
  verifyRegistration reg = first_failure checks reg
  ∧ (∀ pre fails msg post,
       checks = pre ++ (fails, msg) :: post →
       Forall (λ c, c.1 reg = false) pre → fails reg = true →
       verifyRegistration reg = Some (errors_New msg))
  ∧ (verifyRegistration reg = None ↔ Forall (λ c, c.1 reg = false) checks).
Proof.
  split; [apply verifyRegistration_checks |]. split.
  - intros pre fails msg post Hcs Hpre Hf.
    rewrite verifyRegistration_checks, Hcs, first_failure_app by done.
    simpl. by rewrite Hf.
  - rewrite verifyRegistration_checks. generalize checks. intros cs.
    induction cs as [|[fails msg] cs IH]; simpl.
    + split; [constructor | done].
    + rewrite Forall_cons. simpl. destruct (fails reg).
      * split; [done | by intros [? _]].
      * rewrite IH. tauto.
Qed.

(** ** Rejected candidates *)

(** C4, as the code has it: for a candidate that fails validation
    [register] returns an error that wraps the structural error, its
    message prefixed with Register(, the quoted name and ): , and the
    state after the call is the state before it. *)
Theorem register_invalid_wraps reg σ e :
  verifyRegistration reg = Some e →
  ∃ err,
    register reg σ = Ok (Some err, σ)
    ∧ errors_Unwrap err = Some e
    ∧ Error err = "Register(" +:+ strconv_Quote (Name reg) +:+ "): " +:+ Error e.
Proof. intros Hv. eexists. by rewrite (register_invalid _ _ _ Hv). Qed.

Lemma verifyRegistration_missing_stub reg :
  LocalStubFn reg = None ∨ ClientStubFn reg = None ∨ ServerStubFn reg = None →
  is_Some (verifyRegistration reg).
Proof.
  intros Hmiss. destruct (verifyRegistration reg) eqn:Hv; [eauto |].
  apply verifyRegistration_None in Hv
    as (? & ? & _ & _ & _ & _ & [? Hl] & [? Hc] & [? Hs]).
  rewrite Hl, Hc, Hs in Hmiss. by destruct Hmiss as [?|[?|?]].
Qed.

(** C3, as the code has it: a candidate whose local, client or server stub
    factory is absent is rejected by [register] in every state, with the
    state left as it was, and no sequence of [register] calls leaves it in
    the heap or in an index. *)
Theorem register_missing_stub cand :
  LocalStubFn cand = None ∨ ClientStubFn cand = None
  ∨ ServerStubFn cand = None →
  (∀ σ, ∃ err, register cand σ = Ok (Some err, σ))
  ∧ (∀ cands, ∃ σ, run cands init = Ok σ ∧ (cand ∉ heap σ)
       ∧ (∀ k p, comps σ !! k = Some p → pointee σ p ≠ Some cand)
       ∧ (∀ n p, names σ !! n = Some p → pointee σ p ≠ Some cand)).
Proof.
  intros [e He]%verifyRegistration_missing_stub. split.
  - intros σ. eexists. by rewrite (register_invalid _ _ _ He).
  - intros cands. destruct (run_init_wf cands) as (σ & Hrun & Hwf).
    exists σ. split; [done |].
    assert (Hnot : cand ∉ heap σ).
    { intros Hin%(wf_heap _ Hwf). congruence. }
    split; [done |]. split.
    + intros k p Hk Hp. destruct p as [|l]; [done |]. simpl in Hp.
      by apply list_elem_of_lookup_2 in Hp.
    + intros n p Hn Hp. destruct p as [|l]; [done |]. simpl in Hp.
      by apply list_elem_of_lookup_2 in Hp.
Qed.

(** ** Accepted and conflicting registrations *)

Lemma find_stored reg σ :
  find (Name reg) (stored reg σ) = (addr (length (heap σ)), true).
Proof.
  unfold find. by rewrite map_index_byName, names_stored, lookup_insert_eq.
Qed.

Lemma deref_stored reg σ :
  deref (stored reg σ) (addr (length (heap σ))) = Ok reg.
Proof. unfold deref. by rewrite heap_stored_new. Qed.

(** [register] returns either the state it was given or that state with
    the registration stored. *)
Lemma register_Ok_inv reg σ err σ' :
  register reg σ = Ok (err, σ') →
  σ' = σ
  ∨ (err = None ∧ verifyRegistration reg = None
     ∧ comps σ !! Iface reg = None ∧ σ' = stored reg σ).
Proof.
  unfold register. destruct (verifyRegistration reg) as [e|] eqn:Hv.
  { intros [= _ <-]. by left. }
  rewrite map_index_components.
  destruct (comps σ !! Iface reg) as [old|] eqn:Hk.
  - destruct (deref σ old); simpl; [|done]. intros [= _ <-]. by left.
  - intros [= <- <-]. by right.
Qed.

(** Later [register] calls keep the entries of the interface index and
    the heap cells, and the entry of a name that none of them has. *)
Lemma run_frame cands σ σ' :
  run cands σ = Ok σ' →
  (∀ k p, comps σ !! k = Some p → comps σ' !! k = Some p)
  ∧ (∀ l r, heap σ !! l = Some r → heap σ' !! l = Some r)
  ∧ (∀ n, (∀ r, r ∈ cands → Name r ≠ n) → names σ' !! n = names σ !! n).
Proof.
  revert σ. induction cands as [|c cands IH]; intros σ; simpl.
  { intros [= <-]. done. }
  destruct (register c σ) as [[err σ1]|msg] eqn:Hreg; simpl; [|done].
  intros (Hcomps & Hheap & Hnames)%IH.
  assert (Hrest : ∀ n, (∀ r, r ∈ c :: cands → Name r ≠ n) →
            names σ' !! n = names σ1 !! n).
  { intros n Hn. apply Hnames. intros r Hr. apply Hn.
    by apply list_elem_of_further. }
  apply register_Ok_inv in Hreg as [->|(_ & _ & Hfresh & ->)];
    [done |]. split_and!.
  - intros k p Hk. apply Hcomps. rewrite comps_stored, lookup_insert_ne;
      [done | congruence].
  - intros l r Hl. by apply Hheap, heap_stored_old.
  - intros n Hn. rewrite (Hrest n Hn), names_stored.
    apply lookup_insert_ne, (Hn c), list_elem_of_here.
Qed.

(** C1, as the code has it: after [register R1] succeeded, on any state,
    and after any further [register] calls [mid] that returned,
    [register R2] for an [R2] with the interface of [R1] returns an error
    and the state as it was; [R1] is still the entry of its interface, and
    [find] on the name of [R1] returns the address of [R1] right after
    its registration and, when no candidate of [mid] has that name, after
    the failed call.  For an [R2] that passes the validator the error is
    the conflict error, whose message names the implementation type of
    [R1] and that of [R2]; for an [R2] that fails the validator it is the
    structural error, wrapped.  From a state that [register] calls
    reached, the calls of [mid] do return. *)
Theorem register_conflict_keeps_first R1 R2 mid :
  (∀ σ σ1 σ2,
     Iface R1 = Iface R2 →
     register R1 σ = Ok (None, σ1) →
     run mid σ1 = Ok σ2 →
     ∃ err σ3 l,
       register R2 σ2 = Ok (Some err, σ3)
       ∧ σ3 = σ2
       ∧ find (Name R1) σ1 = (addr l, true) ∧ deref σ1 (addr l) = Ok R1
       ∧ comps σ3 !! Iface R1 = Some (addr l) ∧ deref σ3 (addr l) = Ok R1
       ∧ ((∀ r, r ∈ mid → Name r ≠ Name R1) →
          find (Name R1) σ3 = (addr l, true))
       ∧ (verifyRegistration R2 = None →
          ∃ old new,
            Impl R1 = Some old ∧ Impl R2 = Some new
            ∧ err = errorString
                      ("component " +:+ Name R2
                       +:+ " already registered for type "
                       +:+ reflect.Type_String old +:+ " when registering "
                       +:+ reflect.Type_String new)
            ∧ mentions (Error err) (reflect.Type_String old)
            ∧ mentions (Error err) (reflect.Type_String new))
       ∧ (∀ e, verifyRegistration R2 = Some e → errors_Unwrap err = Some e))
  ∧ (∀ pre σ σ1,
       run pre init = Ok σ → register R1 σ = Ok (None, σ1) →
       ∃ σ2, run mid σ1 = Ok σ2).
Proof.
  split.
  - intros σ σ1 σ2 Hi (Hv1 & Hfresh & ->)%register_nil_inv
      (Hcomps & Hheap & Hnames)%run_frame.
    assert (Hk : comps σ2 !! Iface R2 = Some (addr (length (heap σ)))).
    { apply Hcomps. by rewrite comps_stored, <-Hi, lookup_insert_eq. }
    assert (Hl : heap σ2 !! length (heap σ) = Some R1).
    { apply Hheap, heap_stored_new. }
    assert (Hd : deref σ2 (addr (length (heap σ))) = Ok R1).
    { unfold deref. by rewrite Hl. }
    assert (Hfind : (∀ r, r ∈ mid → Name r ≠ Name R1) →
              find (Name R1) σ2 = (addr (length (heap σ)), true)).
    { intros Hmid. unfold find.
      by rewrite map_index_byName, (Hnames _ Hmid), names_stored,
        lookup_insert_eq. }
    destruct (verifyRegistration R2) as [e|] eqn:Hv2.
    + eexists _, σ2, (length (heap σ)).
      rewrite (register_invalid _ _ _ Hv2), find_stored, deref_stored, Hi.
      split_and!; first [done | by intros e' [= <-]].
    + apply verifyRegistration_None in Hv1 as (_ & old & _ & _ & Hold & _).
      apply verifyRegistration_None in Hv2 as Hv2'.
      destruct Hv2' as (_ & new & _ & _ & Hnew & _).
      eexists _, σ2, (length (heap σ)).
      rewrite (register_conflict R2 σ2 _ R1 Hv2 Hk Hl).
      rewrite find_stored, deref_stored, Hi. split_and!; try done.
      intros _. exists old, new. rewrite Hold, Hnew. simpl.
      split_and!; try done.
      * rewrite <-(append_assoc "component "), <-append_assoc.
        apply mentions_intro.
      * rewrite <-(append_empty_r (reflect.Type_String new)) at 1.
        rewrite <-(append_assoc "component "), <-append_assoc.
        rewrite <-(append_assoc _ (reflect.Type_String old)), <-append_assoc.
        apply mentions_intro.
  - intros pre σ σ1 Hrun (Hv1 & Hfresh & ->)%register_nil_inv.
    destruct (run_init_wf pre) as (σ' & Hrun' & Hwf).
    assert (σ' = σ) as -> by congruence.
    destruct (run_wf mid (stored R1 σ)) as (σ2 & Hσ2 & _);
      [by apply wf_stored | by exists σ2].
Qed.

Lemma verifyRegistration_withName n reg :
  verifyRegistration (withName n reg) = verifyRegistration reg.
Proof. done. Qed.

(** C10: the validator does not read the name, and a valid candidate whose
    interface is not registered yet is accepted under any name [n], the
    empty string included; [find n] then returns the address of the stored
    record with [found = true]. *)
Theorem register_any_name σ cand n :
  verifyRegistration cand = None →
  comps σ !! Iface cand = None →
  verifyRegistration (withName n cand) = verifyRegistration cand
  ∧ ∃ σ' l,
      register (withName n cand) σ = Ok (None, σ')
      ∧ find n σ' = (addr l, true)
      ∧ deref σ' (addr l) = Ok (withName n cand).
Proof.
  intros Hv Hfresh. split; [done |].
  exists (stored (withName n cand) σ), (length (heap σ)).
  rewrite register_fresh by done.
  split; [done |]. split.
  - apply (find_stored (withName n cand)).
  - apply deref_stored.
Qed.

(** ** The configuration validator *)

(** C6: for a name that [find] does not know, [ComponentConfigValidator]
    returns nil, whatever the state and the configuration text. *)
Theorem ComponentConfigValidator_unregistered σ path cfg :
  (find path σ).2 = false →
  ComponentConfigValidator path cfg σ = Ok None.
Proof.
  unfold ComponentConfigValidator. destruct (find path σ) as [info ok].
  simpl. by intros ->.
Qed.

Lemma find_true_wf σ path p :
  wf σ → find path σ = (p, true) →
  ∃ l info impl,
    p = addr l ∧ deref σ p = Ok info ∧ Name info = path
    ∧ Impl info = Some impl.
Proof.
  intros Hwf. unfold find. rewrite map_index_byName.
  destruct (names σ !! path) as [q|] eqn:Hq; [|done]. intros [= ->].
  destruct (wf_names _ Hwf _ _ Hq) as (l & info & -> & Hl & Hname & Hk).
  destruct (wf_comps _ Hwf _ _ Hk) as (l' & info' & [= <-] & Hl' & _ & Hv).
  assert (info' = info) as -> by congruence.
  apply verifyRegistration_None in Hv as (_ & impl & _ & _ & Himpl & _).
  exists l, info, impl. unfold deref. by rewrite Hl.
Qed.


(** ** The two indexes *)

(** C2, as the code has it: after any sequence of [register] calls every
    entry of the name index is an entry of the interface index, the same
    address in both; every entry of the interface index has its name in
    the name index; and when no two entries of the interface index have
    the same name, which [register] does not check, an address is in one
    index iff it is in the other. *)
Theorem indexes_correspond cands :
  ∃ σ, run cands init = Ok σ
    ∧ (∀ n p, names σ !! n = Some p →
         ∃ l r, p = addr l ∧ heap σ !! l = Some r ∧ Name r = n
                ∧ comps σ !! Iface r = Some p)
    ∧ (∀ k p, comps σ !! k = Some p →
         ∃ l r, p = addr l ∧ heap σ !! l = Some r ∧ Iface r = k
                ∧ is_Some (names σ !! Name r))
    ∧ (names_distinct σ →
         in_sync σ
         ∧ ∀ k l r, comps σ !! k = Some (addr l) → heap σ !! l = Some r →
                    names σ !! Name r = Some (addr l)).
Proof.
  destruct (run_init_wf cands) as (σ & Hrun & Hwf). exists σ.
  split; [done |]. split; [apply Hwf |]. split.
  - intros k p Hk.
    destruct (wf_comps _ Hwf _ _ Hk) as (l & r & -> & Hl & Hi & _).
    exists l, r. eauto using wf_named.
  - intros Hdist.
    assert (Hexact : ∀ k l r, comps σ !! k = Some (addr l) →
              heap σ !! l = Some r → names σ !! Name r = Some (addr l)).
    { intros k l r Hk Hl.
      destruct (wf_named _ Hwf _ _ _ Hk Hl) as [q Hq].
      destruct (wf_names _ Hwf _ _ Hq) as (l' & r' & -> & Hl' & Hnm & Hk').
      by rewrite (Hdist _ _ _ _ _ _ Hk Hk' Hl Hl'). }
    split; [|done]. intros p. split.
    + intros [k Hk].
      destruct (wf_comps _ Hwf _ _ Hk) as (l & r & -> & Hl & _).
      exists (Name r). eauto.
    + intros [n Hn].
      destruct (wf_names _ Hwf _ _ Hn) as (l & r & -> & _ & _ & Hk).
      eauto.
Qed.

(** ** Snapshots *)

Lemma allComponents_range_app (kvs : list (reflect.Type_ * ptr))
    (acc : list ptr) :
  fold_left (λ components kv, components ++ [kv.2]) kvs acc
  = acc ++ kvs.*2.
Proof.
  revert acc. induction kvs as [|kv kvs IH]; intros acc; simpl.
  - by rewrite app_nil_r.
  - by rewrite IH, <-app_assoc.
Qed.

Lemma allComponents_values σ regs :
  allComponents σ regs ↔ ∃ kvs, kvs ≡ₚ map_to_list (comps σ) ∧ regs = kvs.*2.
Proof.
  unfold allComponents, range_order, allComponents_range.
  by setoid_rewrite allComponents_range_app.
Qed.

Lemma allComponents_elem σ regs p :
  allComponents σ regs → p ∈ regs → ∃ k, comps σ !! k = Some p.
Proof.
  intros (kvs & Hkvs & ->)%allComponents_values
    ([k p'] & -> & Hin)%list_elem_of_fmap.
  exists k. rewrite Hkvs in Hin. by apply elem_of_map_to_list in Hin.
Qed.

Lemma allComponents_length σ regs :
  allComponents σ regs → length regs = size (comps σ).
Proof.
  intros (kvs & Hkvs & ->)%allComponents_values.
  by rewrite length_fmap, Hkvs, length_map_to_list.
Qed.

Lemma allComponents_run_ok σ : allComponents σ (allComponents_run σ).
Proof.
  exists (map_to_list (comps σ)). split; [|done].
  unfold range_order. reflexivity.
Qed.

(** C8: after any sequence of [register] calls, a slice that
    [allComponents] returned has one element per entry of the interface
    index, and a later [register] call returns and leaves every element of
    the slice pointing to the registration it pointed to; when that call
    stores a new component, a new call of [allComponents] returns one
    element more, the old slice still has its length. *)
Theorem allComponents_snapshot cands :
  ∃ σ, run cands init = Ok σ
    ∧ ∀ regs cand,
        allComponents σ regs →
        length regs = size (comps σ)
        ∧ ∃ err σ',
            register cand σ = Ok (err, σ')
            ∧ Forall (λ p, ∃ r, deref σ p = Ok r ∧ deref σ' p = Ok r) regs
            ∧ (err = None →
               ∀ regs', allComponents σ' regs' →
                        length regs' = S (length regs)).
Proof.
  destruct (run_init_wf cands) as (σ & Hrun & Hwf). exists σ.
  split; [done |]. intros regs cand Hregs.
  split; [by apply allComponents_length |].
  destruct (register_wf cand σ Hwf)
    as (err & σ' & Hreg & Hwf' & [[Herr Hσ]|(Herr & Hσ & Hv & Hfresh)]);
    exists err, σ'; (split; [done |]); subst.
  - split.
    + apply Forall_forall. intros p [k Hk]%(allComponents_elem _ _ _ Hregs).
      destruct (wf_comps _ Hwf _ _ Hk) as (l & r & -> & Hl & _).
      exists r. unfold deref. by rewrite Hl.
    + intros ->. by destruct Herr.
  - split.
    + apply Forall_forall. intros p [k Hk]%(allComponents_elem _ _ _ Hregs).
      destruct (wf_comps _ Hwf _ _ Hk) as (l & r & -> & Hl & _).
      exists r. unfold deref.
      by rewrite (heap_stored_old cand _ _ _ Hl), Hl.
    + intros _ regs' Hregs'.
      rewrite (allComponents_length _ _ Hregs'),
        (allComponents_length _ _ Hregs), comps_stored.
      by apply map_size_insert_None.
Qed.

(** ** The call graph *)

Lemma foldM_app {A B : Type} (body : B → A → result B) (xs ys : list A)
    (acc : B) :
  foldM body (xs ++ ys) acc = acc' ← foldM body xs acc; foldM body ys acc'.
Proof.
  revert acc. induction xs as [|x xs IH]; intros acc; simpl; [done |].
  destruct (body acc x); simpl; [apply IH | done].
Qed.

Lemma refTarget_dependencyRef t callee :
  refTarget t = Some callee ↔ dependencyRef t callee.
Proof.
  unfold refTarget, dependencyRef.
  destruct (String.eqb_spec (reflect.Type_PkgPath t)
              "github.com/ServiceWeaver/weaver") as [Hp|Hp]; simpl.
  2:{ split; [done | by intros [? _]]. }
  destruct (String.prefix "Ref[" (reflect.Type_Name t)) eqn:Hn; simpl.
  2:{ split; [done |]. intros (_ & Hrest%prefix_spec & _). congruence. }
  apply prefix_spec in Hn.
  case_bool_decide as Hk; simpl.
  2:{ split; [done | by intros (_ & _ & ? & _)]. }
  destruct (reflect.Type_fields t) as [|f [|g fs]].
  - split; [done | by intros (_ & _ & _ & ? & ? & _)].
  - destruct (String.eqb_spec (reflect.Field_Name f) "value") as [Hv|Hv].
    + split.
      * intros [= <-]. split_and!; [done.. |]. by exists f.
      * intros (_ & _ & _ & f' & [= <-] & _ & <-). done.
    + split; [done |]. intros (_ & _ & _ & f' & [= <-] & ? & _). done.
  - split; [done | by intros (_ & _ & _ & ? & ? & _)].
Qed.

(** The test of [CallGraph] holds for the dependency references, and does
    not panic. *)
Lemma isRef_refTarget ref :
  isRef ref = Ok (bool_decide (is_Some (refTarget ref)))
  ∧ ∀ callee, refTarget ref = Some callee →
      ∃ f0, reflect.Field ref 0 = Ok f0 ∧ reflect.Field_Type f0 = callee.
Proof.
  unfold isRef, refTarget, strings_HasPrefix, reflect.NumField, reflect.Field.
  destruct (_ && _ && bool_decide _) eqn:Hc; [|by split].
  apply andb_prop in Hc as [_ Hk%bool_decide_eq_true].
  rewrite !decide_True by done. simpl.
  destruct (reflect.Type_fields ref) as [|f [|g fs]]; simpl; [by split | |by split].
  destruct (String.eqb (reflect.Field_Name f) "value"); simpl; [|by split].
  split; [done |]. intros callee [= <-]. eauto.
Qed.

Lemma Field_Some t i f :
  reflect.Type_Kind t = reflect.Struct →
  reflect.Type_fields t !! i = Some f →
  reflect.Field t i = Ok f.
Proof. intros Hk Hf. unfold reflect.Field. by rewrite decide_True, Hf. Qed.

Lemma CallGraph_field_spec reg impl res i f :
  reflect.Type_Kind impl = reflect.Struct →
  reflect.Type_fields impl !! i = Some f →
  CallGraph_field reg impl res i
  = Ok (res ++ (edge (Iface reg)
                  <$> option_list (refTarget (reflect.Field_Type f)))).
Proof.
  intros Hk Hf. unfold CallGraph_field.
  rewrite (Field_Some _ _ _ Hk Hf). simpl.
  destruct (isRef_refTarget (reflect.Field_Type f)) as [-> Hf0]. simpl.
  destruct (refTarget (reflect.Field_Type f)) as [callee|] eqn:Ht.
  - rewrite bool_decide_eq_true_2 by eauto.
    destruct (Hf0 callee eq_refl) as (f0 & -> & <-). done.
  - rewrite bool_decide_eq_false_2 by (by intros [? ?]). simpl.
    by rewrite app_nil_r.
Qed.

(** The inner loop of [CallGraph] up to the field [n]. *)
Lemma CallGraph_fields_spec reg impl res (n : nat) :
  reflect.Type_Kind impl = reflect.Struct →
  (n ≤ length (reflect.Type_fields impl))%nat →
  foldM (CallGraph_field reg impl) (seq 0 n) res
  = Ok (res ++ (edge (Iface reg)
                  <$> omap (λ f, refTarget (reflect.Field_Type f))
                        (take n (reflect.Type_fields impl)))).
Proof.
  intros Hk. induction n as [|n IH]; intros Hn.
  - simpl. by rewrite app_nil_r.
  - rewrite seq_S, foldM_app, IH by lia. simpl.
    destruct (lookup_lt_is_Some_2 (reflect.Type_fields impl) n) as [f Hf];
      [lia |].
    rewrite (CallGraph_field_spec _ _ _ _ _ Hk Hf), (take_S_r _ _ _ Hf).
    rewrite omap_app, fmap_app, <-app_assoc. simpl.
    by destruct (refTarget (reflect.Field_Type f)).
Qed.

Lemma CallGraph_reg_spec σ res p r :
  deref σ p = Ok r → verifyRegistration r = None →
  CallGraph_reg σ res p = Ok (res ++ edgesOf r).
Proof.
  intros Hd (_ & impl & _ & _ & Himpl & Hk & _)%verifyRegistration_None.
  unfold CallGraph_reg, edgesOf, dependencies. rewrite Hd. simpl.
  rewrite Himpl. unfold reflect.NumField. rewrite decide_True by done. simpl.
  by rewrite CallGraph_fields_spec, firstn_all.
Qed.

Lemma CallGraph_range_spec σ regs rs res :
  Forall2 (λ p r, deref σ p = Ok r ∧ verifyRegistration r = None) regs rs →
  foldM (CallGraph_reg σ) regs res = Ok (res ++ (rs ≫= edgesOf)).
Proof.
  intros Hrs. revert res.
  induction Hrs as [|p r regs rs [Hd Hv] _ IH]; intros res; simpl.
  - by rewrite app_nil_r.
  - rewrite (CallGraph_reg_spec _ _ _ _ Hd Hv). simpl.
    by rewrite IH, <-app_assoc.
Qed.

(** The registered components behind a slice of [allComponents]. *)

Lemma omap_fmap_compose {A B C : Type} (g : A → B) (f : B → option C)
    (l : list A) :
  omap f (g <$> l) = omap (λ x, f (g x)) l.
Proof.
  induction l as [|x l IH]; [done |]. csimpl. rewrite IH. done.
Qed.

Lemma omap_pointee_ext σ σ' (kvs : list (reflect.Type_ * ptr)) :
  Forall (λ kv, pointee σ' kv.2 = pointee σ kv.2) kvs →
  omap (λ kv, pointee σ' kv.2) kvs = omap (λ kv, pointee σ kv.2) kvs.
Proof.
  induction 1 as [|kv kvs Hkv _ IH]; [done |]. csimpl. by rewrite Hkv, IH.
Qed.

Lemma Forall2_pointee σ regs :
  Forall (λ p, ∃ l r, p = addr l ∧ heap σ !! l = Some r
                      ∧ verifyRegistration r = None) regs →
  Forall2 (λ p r, deref σ p = Ok r ∧ verifyRegistration r = None)
    regs (omap (pointee σ) regs).
Proof.
  induction 1 as [|p regs (l & r & -> & Hl & Hv) _ IH]; csimpl.
  - constructor.
  - rewrite Hl. constructor; [|done]. unfold deref. by rewrite Hl.
Qed.

Lemma allComponents_registered σ regs :
  wf σ → allComponents σ regs →
  ∃ rs, Forall2 (λ p r, deref σ p = Ok r ∧ verifyRegistration r = None)
          regs rs
        ∧ rs ≡ₚ registered σ.
Proof.
  intros Hwf Hregs. exists (omap (pointee σ) regs). split.
  - apply Forall2_pointee, Forall_forall.
    intros p [k Hk]%(allComponents_elem _ _ _ Hregs).
    destruct (wf_comps _ Hwf _ _ Hk) as (l & r & -> & Hl & _ & Hv). eauto.
  - apply allComponents_values in Hregs as (kvs & Hkvs & ->).
    unfold registered. by rewrite omap_fmap_compose, Hkvs.
Qed.

(** On a state that satisfies the invariant, every run of [CallGraph]
    returns the edges of the registered components, in some order. *)
Lemma CallGraph_registered σ out :
  wf σ → CallGraph σ out →
  ∃ es, out = Ok es ∧ es ≡ₚ registered σ ≫= edgesOf.
Proof.
  intros Hwf (regs & Hregs & ->).
  destruct (allComponents_registered _ _ Hwf Hregs) as (rs & Hrs & Hperm).
  exists (rs ≫= edgesOf). unfold CallGraph_range.
  rewrite (CallGraph_range_spec _ _ _ _ Hrs). split; [done |].
  by rewrite Hperm.
Qed.

Lemma CallGraph_run_ok σ : CallGraph σ (CallGraph_run σ).
Proof. exists (allComponents_run σ). split; [apply allComponents_run_ok | done]. Qed.

(** Two fields that give the same value give it twice. *)
Lemma filter_omap_twice {A B : Type} `{EqDecision B} (h : A → option B)
    (l : list A) (i j : nat) (x y : A) (z : B) :
  i ≠ j → l !! i = Some x → l !! j = Some y → h x = Some z → h y = Some z →
  (2 ≤ length (filter (λ b, b = z) (omap h l)))%nat.
Proof.
  assert (Hlt : ∀ i j x y, (i < j)%nat → l !! i = Some x → l !! j = Some y →
            h x = Some z → h y = Some z →
            (2 ≤ length (filter (λ b, b = z) (omap h l)))%nat).
  { clear i j x y. intros i j x y Hij Hi Hj Hx Hy.
    rewrite <-(take_drop_middle _ _ _ Hi).
    assert (Hj' : drop (S i) l !! (j - S i)%nat = Some y).
    { rewrite lookup_drop. by replace (S i + (j - S i))%nat with j by lia. }
    rewrite <-(take_drop_middle _ _ _ Hj').
    rewrite omap_app, filter_app, length_app. csimpl. rewrite Hx.
    rewrite filter_cons_True by done. simpl.
    rewrite omap_app, filter_app, length_app. csimpl. rewrite Hy.
    rewrite filter_cons_True by done. simpl. lia. }
  intros Hne Hi Hj Hx Hy.
  destruct (decide (i < j)%nat); [eauto |].
  apply (Hlt j i y x); [lia | done..].
Qed.

Lemma edgesOf_twice r impl i j f g callee :
  Impl r = Some impl → i ≠ j →
  reflect.Type_fields impl !! i = Some f →
  reflect.Type_fields impl !! j = Some g →
  dependencyRef (reflect.Field_Type f) callee →
  dependencyRef (reflect.Field_Type g) callee →
  (2 ≤ length (filter (λ e, e = edge (Iface r) callee) (edgesOf r)))%nat.
Proof.
  intros Himpl Hne Hi Hj Hf%refTarget_dependencyRef Hg%refTarget_dependencyRef.
  unfold edgesOf, dependencies. rewrite Himpl, list_fmap_omap.
  apply (filter_omap_twice _ _ i j f g); [done.. | |]; simpl.
  - by rewrite Hf.
  - by rewrite Hg.
Qed.

Lemma edgesOf_nil r :
  (∀ impl f callee, Impl r = Some impl → f ∈ reflect.Type_fields impl →
                    ¬ dependencyRef (reflect.Field_Type f) callee) →
  edgesOf r = [].
Proof.
  intros Hnone. unfold edgesOf, dependencies.
  destruct (Impl r) as [impl|] eqn:Himpl; [|done].
  assert (Hall : ∀ f, f ∈ reflect.Type_fields impl →
            refTarget (reflect.Field_Type f) = None).
  { intros f Hf. destruct (refTarget _) as [callee|] eqn:Ht; [|done].
    apply refTarget_dependencyRef in Ht. by destruct (Hnone impl f callee). }
  induction (reflect.Type_fields impl) as [|f fs IH]; [done |]. csimpl.
  rewrite Hall by apply list_elem_of_here. apply IH.
  intros f' Hf'. apply Hall. by apply list_elem_of_further.
Qed.

(** Sequences of [Register] calls. *)

Lemma Register_Ok reg σ σ' :
  Register reg σ = Ok σ' ↔
  verifyRegistration reg = None ∧ comps σ !! Iface reg = None
  ∧ σ' = stored reg σ.
Proof.
  unfold Register. split.
  - destruct (register reg σ) as [[[e|] σ1]|msg] eqn:Hreg; simpl; try done.
    intros [= <-]. by apply register_nil_inv.
  - intros (Hv & Hfresh & ->). by rewrite register_fresh.
Qed.

Lemma RegisterAll_cons reg cands σ σ' :
  RegisterAll (reg :: cands) σ = Ok σ' ↔
  verifyRegistration reg = None ∧ comps σ !! Iface reg = None
  ∧ RegisterAll cands (stored reg σ) = Ok σ'.
Proof.
  unfold RegisterAll. simpl. split.
  - destruct (Register reg σ) as [σ1|msg] eqn:Hreg; simpl; [|done].
    apply Register_Ok in Hreg as (Hv & Hfresh & ->). done.
  - intros (Hv & Hfresh & Hrest).
    assert (Register reg σ = Ok (stored reg σ)) as -> by by apply Register_Ok.
    done.
Qed.

Lemma registered_stored reg σ :
  wf σ → comps σ !! Iface reg = None →
  registered (stored reg σ) ≡ₚ reg :: registered σ.
Proof.
  intros Hwf Hfresh. unfold registered.
  rewrite comps_stored, map_to_list_insert by done. csimpl.
  change ((heap σ ++ [reg]) !! length (heap σ))
    with (heap (stored reg σ) !! length (heap σ)).
  rewrite heap_stored_new. constructor.
  rewrite (omap_pointee_ext σ (stored reg σ)); [done |].
  apply Forall_forall. intros [k p] Hk%elem_of_map_to_list.
  destruct (wf_comps _ Hwf _ _ Hk) as (l & r & -> & Hl & _).
  cbn [snd pointee]. by rewrite (heap_stored_old reg _ _ _ Hl), Hl.
Qed.

Lemma RegisterAll_registered cands σ0 σ :
  wf σ0 → RegisterAll cands σ0 = Ok σ →
  wf σ ∧ registered σ ≡ₚ registered σ0 ++ cands.
Proof.
  revert σ0. induction cands as [|reg cands IH]; intros σ0 Hwf.
  - intros [= <-]. by rewrite app_nil_r.
  - intros (Hv & Hfresh & Hrest)%RegisterAll_cons.
    destruct (IH _ (wf_stored _ _ Hwf Hv Hfresh) Hrest) as [Hwf' Hperm].
    split; [done |].
    by rewrite Hperm, registered_stored, <-Permutation_middle.
Qed.

(** A sequence of [Register] calls goes through iff every registration is
    valid and the interfaces are pairwise distinct and not registered
    before. *)
Lemma RegisterAll_Ok cands σ0 :
  (∃ σ, RegisterAll cands σ0 = Ok σ) ↔
  Forall (λ r, verifyRegistration r = None) cands
  ∧ NoDup (Iface <$> cands)
  ∧ Forall (λ r, comps σ0 !! Iface r = None) cands.
Proof.
  revert σ0. induction cands as [|reg cands IH]; intros σ0.
  - split; [|by eexists]. intros _. split_and!; constructor.
  - setoid_rewrite RegisterAll_cons. csimpl.
    rewrite !Forall_cons, NoDup_cons, list_elem_of_fmap.
    assert (Hstored : Forall (λ r, comps (stored reg σ0) !! Iface r = None) cands
              ↔ (¬ ∃ r, Iface reg = Iface r ∧ r ∈ cands)
                ∧ Forall (λ r, comps σ0 !! Iface r = None) cands).
    { rewrite !Forall_forall. setoid_rewrite comps_stored.
      setoid_rewrite lookup_insert_None. split.
      - intros Hall. split.
        + intros (r & Hr & Hin). by destruct (Hall r Hin).
        + intros r Hin. by destruct (Hall r Hin).
      - intros [Hnot Hall] r Hin. split; [by apply Hall |].
        intros Hr. apply Hnot. by exists r. }
    split.
    + intros (σ & Hv & Hfresh & Hrest).
      destruct (proj1 (IH _) (ex_intro _ σ Hrest)) as (? & ? & Hs).
      apply Hstored in Hs as [? ?]. done.
    + intros ([Hv ?] & [? ?] & [Hfresh ?]).
      destruct (proj2 (IH (stored reg σ0))) as [σ Hσ].
      { split_and!; [done.. |]. by apply Hstored. }
      by exists σ.
Qed.

Lemma RegisterAll_Permutation cands cands' σ0 σ :
  cands ≡ₚ cands' → RegisterAll cands σ0 = Ok σ →
  ∃ σ', RegisterAll cands' σ0 = Ok σ'.
Proof.
  intros Hperm Hσ. apply RegisterAll_Ok. rewrite <-Hperm.
  apply RegisterAll_Ok. eauto.
Qed.

(** C5: after any sequence of [register] calls [CallGraph] returns, and
    what it returns is, up to the order, one edge per
    dependency-reference field of every registered component ([edgesOf],
    spelled out in the last two parts), from the interface of the
    component to the interface the field refers to; with
    no dependency-reference field at all the result is empty; two distinct
    fields of a component that refer to the same interface give two
    edges; and registering the same components in another order gives
    the same edges up to the order. *)
Theorem CallGraph_edges :
  (∀ cands,
     ∃ σ, run cands init = Ok σ
       ∧ CallGraph σ (CallGraph_run σ)
       ∧ ∀ out, CallGraph σ out →
           ∃ es, out = Ok es
             ∧ es ≡ₚ registered σ ≫= edgesOf
             ∧ ((∀ r impl f callee,
                   r ∈ registered σ → Impl r = Some impl →
                   f ∈ reflect.Type_fields impl →
                   ¬ dependencyRef (reflect.Field_Type f) callee) →
                es = [])
             ∧ (∀ r impl i j f g callee,
                  r ∈ registered σ → Impl r = Some impl → i ≠ j →
                  reflect.Type_fields impl !! i = Some f →
                  reflect.Type_fields impl !! j = Some g →
                  dependencyRef (reflect.Field_Type f) callee →
                  dependencyRef (reflect.Field_Type g) callee →
                  (2 ≤ length (filter (λ e, e = edge (Iface r) callee) es))%nat))
  ∧ (∀ cands cands' σ,
       cands ≡ₚ cands' → RegisterAll cands init = Ok σ →
       registered σ ≡ₚ cands
       ∧ ∃ σ', RegisterAll cands' init = Ok σ'
           ∧ ∀ out out', CallGraph σ out → CallGraph σ' out' →
               ∃ es es', out = Ok es ∧ out' = Ok es' ∧ es ≡ₚ es')
  ∧ (∀ r, edgesOf r
          = match Impl r with
            | Some impl =>
                edge (Iface r)
                  <$> omap (λ f, refTarget (reflect.Field_Type f))
                        (reflect.Type_fields impl)
            | None => []
            end)
  ∧ (∀ t callee, refTarget t = Some callee ↔ dependencyRef t callee).
Proof.
  split; [|split; [|split; [done | apply refTarget_dependencyRef]]].
  - intros cands. destruct (run_init_wf cands) as (σ & Hrun & Hwf).
    exists σ. split; [done |]. split; [apply CallGraph_run_ok |].
    intros out (es & -> & Hes)%CallGraph_registered; [|done].
    exists es. split; [done |]. split; [done |]. split.
    + intros Hnone. apply Permutation_nil_r. rewrite Hes.
      clear Hes. induction (registered σ) as [|r rs IH]; [done |].
      rewrite bind_cons, edgesOf_nil, IH; [done | |].
      * intros r' impl f callee Hr'. apply Hnone. by apply list_elem_of_further.
      * intros impl f callee. apply Hnone, list_elem_of_here.
    + intros r impl i j f g callee Hr Himpl Hne Hi Hj Hf Hg.
      rewrite Hes. apply list_elem_of_split in Hr as (rs1 & rs2 & ->).
      rewrite bind_app, bind_cons, !filter_app, !length_app.
      pose proof (edgesOf_twice r impl i j f g callee Himpl Hne Hi Hj Hf Hg).
      lia.
  - intros cands cands' σ Hperm Hσ.
    destruct (RegisterAll_registered _ _ _ wf_init Hσ) as [Hwf Hreg].
    split; [done |].
    destruct (RegisterAll_Permutation _ _ _ _ Hperm Hσ) as [σ' Hσ'].
    destruct (RegisterAll_registered _ _ _ wf_init Hσ') as [Hwf' Hreg'].
    exists σ'. split; [done |].
    intros out out' (es & -> & Hes)%CallGraph_registered
      (es' & -> & Hes')%CallGraph_registered; [|done..].
    exists es, es'. split_and!; [done.. |].
    by rewrite Hes, Hes', Hreg, Hreg', Hperm.
Qed.

End Proofs.

(** * Further properties of the registry *)

Section Extras.
Context `{Externals}.
Implicit Types (σ : state) (reg r : Registration) (p : ptr).

(** ** What a sequence of [register] calls keeps *)

Lemma indexed_init : indexed init.
Proof.
  split.
  - unfold comps. simpl. by rewrite map_to_list_empty.
  - intros n l. unfold names. simpl. by rewrite lookup_empty.
  - unfold names, comps. simpl. by rewrite !map_size_empty.
Qed.

Lemma index_of_snoc (h : list Registration) r :
  index_of (h ++ [r]) = index_of h ++ [(Iface r, addr (length h))].
Proof. unfold index_of. rewrite imap_app. simpl. by rewrite Nat.add_0_r. Qed.

Lemma indexed_lookup σ k p :
  indexed σ →
  comps σ !! k = Some p ↔ ∃ l r, heap σ !! l = Some r ∧ k = Iface r ∧ p = addr l.
Proof.
  intros Hi. rewrite <-elem_of_map_to_list, (indexed_comps _ Hi).
  unfold index_of. rewrite elem_of_lookup_imap. split.
  - intros (l & r & [= -> ->] & Hl). by exists l, r.
  - intros (l & r & Hl & -> & ->). by exists l, r.
Qed.

Lemma indexed_fresh σ k :
  indexed σ → comps σ !! k = None ↔ k ∉ Iface <$> heap σ.
Proof.
  intros Hi. rewrite eq_None_not_Some, list_elem_of_fmap. split.
  - intros Hnone (r & -> & [l Hl]%list_elem_of_lookup_1). apply Hnone.
    exists (addr l). apply indexed_lookup; [done |]. by exists l, r.
  - intros Hnot [p (l & r & Hl & -> & _)%indexed_lookup]; [|done].
    apply Hnot. exists r. split; [done |]. by eapply list_elem_of_lookup_2.
Qed.

Lemma indexed_stored reg σ :
  indexed σ → comps σ !! Iface reg = None → indexed (stored reg σ).
Proof.
  intros Hi Hfresh. split.
  - rewrite comps_stored, map_to_list_insert by done.
    change (heap (stored reg σ)) with (heap σ ++ [reg]).
    rewrite index_of_snoc, (indexed_comps _ Hi).
    apply Permutation_cons_append.
  - intros n l. rewrite names_stored, lookup_insert.
    change (heap (stored reg σ)) with (heap σ ++ [reg]).
    case_decide as Hn.
    + intros [= <-] l' r' Hlt Hl'. apply lookup_lt_Some in Hl'.
      rewrite length_app in Hl'. simpl in Hl'. lia.
    + intros Hl l' r' Hlt [[_ Hl']|[-> ->]]%lookup_snoc_Some; [|done].
      by apply (indexed_last _ Hi n l Hl l').
  - rewrite names_stored, comps_stored, map_size_insert.
    rewrite (map_size_insert_None _ _ _ Hfresh).
    pose proof (indexed_size _ Hi). destruct (names σ !! Name reg); simpl; lia.
Qed.

Lemma accepted_after_fresh acc c cands :
  verifyRegistration c = None → Iface c ∉ Iface <$> acc →
  accepted_after acc (c :: cands) = accepted_after (acc ++ [c]) cands.
Proof.
  intros Hv Hnot. simpl.
  by rewrite !bool_decide_eq_true_2.
Qed.

Lemma accepted_after_invalid acc c cands e :
  verifyRegistration c = Some e →
  accepted_after acc (c :: cands) = accepted_after acc cands.
Proof. intros Hv. simpl. rewrite Hv. by rewrite bool_decide_eq_false_2. Qed.

Lemma accepted_after_conflict acc c cands :
  Iface c ∈ Iface <$> acc →
  accepted_after acc (c :: cands) = accepted_after acc cands.
Proof.
  intros Hin. simpl.
  rewrite (bool_decide_eq_false_2 (Iface c ∉ _)) by (by intros ?).
  by rewrite andb_false_r.
Qed.

(** A sequence of [register] calls returns, keeps the invariants, and
    leaves in the heap the accepted candidates. *)
Lemma run_indexed cands σ0 :
  wf σ0 → indexed σ0 →
  ∃ σ, run cands σ0 = Ok σ ∧ wf σ ∧ indexed σ
       ∧ heap σ = accepted_after (heap σ0) cands.
Proof.
  revert σ0. induction cands as [|c cands IH]; intros σ0 Hwf Hi.
  - by exists σ0.
  - destruct (verifyRegistration c) as [e|] eqn:Hv.
    { rewrite (accepted_after_invalid _ _ _ _ Hv). simpl run.
      rewrite (register_invalid _ _ _ Hv). simpl. by apply IH. }
    destruct (comps σ0 !! Iface c) as [p|] eqn:Hk.
    + destruct (wf_comps _ Hwf _ _ Hk) as (l & old & -> & Hl & _).
      rewrite accepted_after_conflict.
      2:{ apply dec_stable. intros Hnot%indexed_fresh; [|done]. congruence. }
      simpl run. rewrite (register_conflict _ _ _ _ Hv Hk Hl). simpl.
      by apply IH.
    + rewrite accepted_after_fresh by (by try apply indexed_fresh).
      simpl run. rewrite (register_fresh _ _ Hv Hk). simpl.
      apply (IH (stored c σ0)); [by apply wf_stored | by apply indexed_stored].
Qed.

Lemma run_init_indexed cands :
  ∃ σ, run cands init = Ok σ ∧ wf σ ∧ indexed σ ∧ heap σ = accepted cands.
Proof. apply (run_indexed cands init wf_init indexed_init). Qed.

Lemma indexed_NoDup σ : indexed σ → NoDup (Iface <$> heap σ).
Proof.
  intros Hi. apply NoDup_alt. intros i j k.
  rewrite !list_lookup_fmap, !fmap_Some.
  intros (r & Hr & ->) (r' & Hr' & Hk).
  assert (comps σ !! Iface r = Some (addr i)) as Hci.
  { apply indexed_lookup; [done |]. by exists i, r. }
  assert (comps σ !! Iface r = Some (addr j)) as Hcj.
  { apply indexed_lookup; [done |]. by exists j, r'. }
  congruence.
Qed.

Lemma indexed_size_comps σ : indexed σ → size (comps σ) = length (heap σ).
Proof.
  intros Hi. rewrite <-length_map_to_list, (indexed_comps _ Hi).
  apply length_imap.
Qed.

Lemma omap_pointee_index_of σ (h1 h2 : list Registration) :
  heap σ = h1 ++ h2 →
  omap (λ kv : reflect.Type_ * ptr, pointee σ kv.2)
    (imap (λ l r, (Iface r, addr (length h1 + l))) h2) = h2.
Proof.
  revert h1. induction h2 as [|r h2 IH]; intros h1 Hh; [done |].
  rewrite imap_cons. csimpl. rewrite Nat.add_0_r, Hh.
  rewrite lookup_app_r, Nat.sub_diag by lia. simpl. f_equal.
  rewrite <-(IH (h1 ++ [r])) at 2 by (by rewrite <-app_assoc).
  f_equal. apply imap_ext. intros l r' _. simpl.
  rewrite length_app. simpl. do 2 f_equal. lia.
Qed.

Lemma indexed_registered σ : indexed σ → registered σ ≡ₚ heap σ.
Proof.
  intros Hi. unfold registered. rewrite (indexed_comps _ Hi).
  pose proof (omap_pointee_index_of σ [] (heap σ) eq_refl) as Ho.
  simpl in Ho. unfold index_of. by rewrite Ho.
Qed.

(** Of the candidates of a sequence of [register] calls the registry holds
    those that pass the validator and whose interface was not accepted
    before, the first of each interface and no other, each under its
    interface in the interface index. *)
Theorem run_first_wins cands :
  ∃ σ, run cands init = Ok σ
    ∧ heap σ = accepted cands
    ∧ registered σ ≡ₚ accepted cands
    ∧ (∀ l r, accepted cands !! l = Some r →
              comps σ !! Iface r = Some (addr l))
    ∧ (∀ k, comps σ !! k = None ↔ k ∉ Iface <$> accepted cands)
    ∧ NoDup (Iface <$> accepted cands)
    ∧ size (comps σ) = length (accepted cands)
    ∧ (size (names σ) ≤ length (accepted cands))%nat.
Proof.
  destruct (run_init_indexed cands) as (σ & Hrun & Hwf & Hi & Hheap).
  exists σ. rewrite <-Hheap. split_and!; try done.
  - by apply indexed_registered.
  - intros l r Hl. apply indexed_lookup; [done |]. by exists l, r.
  - intros k. by apply indexed_fresh.
  - by apply indexed_NoDup.
  - by apply indexed_size_comps.
  - rewrite <-(indexed_size_comps _ Hi). by apply indexed_size.
Qed.

(** [find] after a sequence of [register] calls: a name that no accepted
    candidate has is not found, and a name is found at the last accepted
    candidate that has it; [find] never returns nil with [true]. *)
Theorem find_last_wins cands :
  ∃ σ, run cands init = Ok σ
    ∧ ∀ n,
        (find n σ = (nil, false) ↔ ∀ r, r ∈ accepted cands → Name r ≠ n)
        ∧ (∀ l, find n σ = (addr l, true) ↔
                ∃ r, accepted cands !! l = Some r ∧ Name r = n
                     ∧ ∀ l' r', (l < l')%nat →
                                accepted cands !! l' = Some r' →
                                Name r' ≠ n)
        ∧ find n σ ≠ (nil, true).
Proof.
  destruct (run_init_indexed cands) as (σ & Hrun & Hwf & Hi & Hheap).
  exists σ. rewrite <-Hheap. split; [done |]. intros n.
  unfold find. rewrite map_index_byName.
  destruct (names σ !! n) as [p|] eqn:Hn.
  - destruct (wf_names _ Hwf _ _ Hn) as (l0 & r0 & -> & Hl0 & Hname & _).
    pose proof (indexed_last _ Hi _ _ Hn) as Hlast.
    split_and!; [|split|done].
    + split; [done |]. intros Hnone. destruct (Hnone r0); [|done].
      by eapply list_elem_of_lookup_2.
    + intros [= <-]. by exists r0.
    + intros (r & Hl & Hr & Hlast'). do 2 f_equal.
      destruct (Nat.lt_trichotomy l0 l) as [Hlt|[->|Hlt]]; [|done|].
      * by destruct (Hlast l r Hlt Hl).
      * by destruct (Hlast' l0 r0 Hlt Hl0).
  - split_and!; [|split|done].
    + split; [|done]. intros _ r [l Hl]%list_elem_of_lookup_1 Hr.
      assert (comps σ !! Iface r = Some (addr l)) as Hk.
      { apply indexed_lookup; [done |]. by exists l, r. }
      destruct (wf_named _ Hwf _ _ _ Hk Hl) as [q Hq]. congruence.
    + done.
    + intros (r & Hl & Hr & _).
      assert (comps σ !! Iface r = Some (addr l)) as Hk.
      { apply indexed_lookup; [done |]. by exists l, r. }
      destruct (wf_named _ Hwf _ _ _ Hk Hl) as [q Hq]. congruence.
Qed.

Lemma index_of_values (h : list Registration) :
  (index_of h).*2 = addr <$> seq 0 (length h).
Proof.
  unfold index_of. rewrite fmap_imap. simpl.
  by rewrite <-(imap_seq_0 h addr).
Qed.

(** The slice of [Registered] after a sequence of [register] calls holds
    the address of every accepted candidate once and nothing else: no
    nil, no address twice. *)
Theorem Registered_each_once cands :
  ∃ σ, run cands init = Ok σ
    ∧ ∀ regs, Registered σ regs →
        regs ≡ₚ addr <$> seq 0 (length (accepted cands))
        ∧ NoDup regs
        ∧ (nil ∉ regs)
        ∧ ∀ l, addr l ∈ regs ↔ ∃ r, accepted cands !! l = Some r
                                     ∧ deref σ (addr l) = Ok r.
Proof.
  destruct (run_init_indexed cands) as (σ & Hrun & Hwf & Hi & Hheap).
  exists σ. rewrite <-Hheap. split; [done |]. intros regs Hregs.
  assert (Hperm : regs ≡ₚ addr <$> seq 0 (length (heap σ))).
  { apply allComponents_values in Hregs as (kvs & Hkvs & ->).
    by rewrite Hkvs, (indexed_comps _ Hi), index_of_values. }
  split; [done |]. split_and!.
  - rewrite Hperm. apply NoDup_fmap_2; [|apply NoDup_seq].
    by intros ?? [=].
  - rewrite Hperm, list_elem_of_fmap. by intros (? & [=] & _).
  - intros l. rewrite Hperm, list_elem_of_fmap. split.
    + intros (l' & [= <-] & [_ Hlt]%elem_of_seq).
      destruct (lookup_lt_is_Some_2 (heap σ) l) as [r Hr]; [lia |].
      exists r. unfold deref. by rewrite Hr.
    + intros (r & Hr%lookup_lt_Some & _). exists l. split; [done |].
      apply elem_of_seq. lia.
Qed.

(** ** One [register] call, on any state *)

Lemma register_cases reg σ err σ' :
  register reg σ = Ok (err, σ') →
  (∃ e, verifyRegistration reg = Some e ∧ σ' = σ
        ∧ err = Some (wrapError
                        ("Register(" +:+ strconv_Quote (Name reg) +:+ "): "
                         +:+ Error e) e))
  ∨ (∃ l old, verifyRegistration reg = None
        ∧ comps σ !! Iface reg = Some (addr l) ∧ heap σ !! l = Some old
        ∧ σ' = σ
        ∧ err = Some (errorString
                        ("component " +:+ Name reg
                         +:+ " already registered for type "
                         +:+ fmt_v (AType (Impl old)) +:+ " when registering "
                         +:+ fmt_v (AType (Impl reg)))))
  ∨ (verifyRegistration reg = None ∧ comps σ !! Iface reg = None
     ∧ err = None ∧ σ' = stored reg σ).
Proof.
  destruct (verifyRegistration reg) as [e|] eqn:Hv.
  { rewrite (register_invalid _ _ _ Hv). intros [= <- <-]. left. eauto. }
  destruct (comps σ !! Iface reg) as [p|] eqn:Hk.
  - intros Hreg. right; left. destruct p as [|l].
    { unfold register in Hreg.
      rewrite Hv, map_index_components, Hk in Hreg. done. }
    destruct (heap σ !! l) as [old|] eqn:Hl.
    + rewrite (register_conflict _ _ _ _ Hv Hk Hl) in Hreg.
      injection Hreg as <- <-. exists l, old. done.
    + unfold register in Hreg.
      rewrite Hv, map_index_components, Hk in Hreg.
      simpl in Hreg. by rewrite Hl in Hreg.
  - rewrite (register_fresh _ _ Hv Hk). intros [= <- <-]. right; right. done.
Qed.

(** [register] only adds: a call that returns an error leaves the state
    as it was; a call that returns nil appends one heap cell, adds one
    entry to the interface index, keeps every other entry of it and every
    registration a pointer pointed to, and changes [find] for the name
    of the new registration only, which is then found. *)
Theorem register_frame reg σ err σ' :
  register reg σ = Ok (err, σ') →
  (is_Some err → σ' = σ)
  ∧ heap σ `prefix_of` heap σ'
  ∧ comps σ ⊆ comps σ'
  ∧ (∀ n, n ≠ Name reg → find n σ' = find n σ)
  ∧ (∀ p r, deref σ p = Ok r → deref σ' p = Ok r)
  ∧ (err = None →
     heap σ' = heap σ ++ [reg]
     ∧ find (Name reg) σ' = (addr (length (heap σ)), true)
     ∧ deref σ' (addr (length (heap σ))) = Ok reg
     ∧ size (comps σ') = S (size (comps σ))).
Proof.
  intros [(e & _ & -> & ->)|[(l & old & _ & _ & _ & -> & ->)
                            |(Hv & Hfresh & -> & ->)]]%register_cases.
  - split_and!; first [done | by intros].
  - split_and!; first [done | by intros].
  - split_and!.
    + by intros [? ?].
    + by exists [reg].
    + rewrite comps_stored. by apply insert_subseteq.
    + intros n Hn. unfold find.
      by rewrite !map_index_byName, names_stored, lookup_insert_ne.
    + intros [|l] r; [done |]. unfold deref.
      destruct (heap σ !! l) as [r'|] eqn:Hl; [|done]. intros [= <-].
      by rewrite (heap_stored_old reg _ _ _ Hl).
    + intros _. split_and!; [done | apply find_stored | apply deref_stored |].
      rewrite comps_stored. by apply map_size_insert_None.
Qed.

(** The two errors of [register] are told apart by unwrapping: what
    [errors.Unwrap] gives is the verdict of the validator, the structural
    error or, for a conflict, nil; the message holds the quoted name in
    the first case and the name in the second. *)
Theorem register_error_unwrap reg σ err σ' :
  register reg σ = Ok (Some err, σ') →
  errors_Unwrap err = verifyRegistration reg
  ∧ (is_Some (verifyRegistration reg) →
     mentions (Error err) (strconv_Quote (Name reg)))
  ∧ (verifyRegistration reg = None →
     mentions (Error err) (Name reg) ∧ is_Some (comps σ !! Iface reg)).
Proof.
  intros [(e & Hv & _ & [= ->])|[(l & old & Hv & Hk & _ & _ & [= ->])
                                |(_ & _ & [=] & _)]]%register_cases;
    rewrite Hv; simpl.
  - split_and!; [done | | done]. intros _.
    apply (mentions_intro "Register(").
  - split_and!; [done | by intros [? ?] |]. intros _. split; [|by eexists].
    apply (mentions_intro "component ").
Qed.

(** ** Sequences of [Register] calls *)

Lemma RegisterAll_run cands σ0 σ :
  RegisterAll cands σ0 = Ok σ →
  run cands σ0 = Ok σ ∧ heap σ = heap σ0 ++ cands.
Proof.
  revert σ0. induction cands as [|reg cands IH]; intros σ0.
  - intros [= <-]. by rewrite app_nil_r.
  - intros (Hv & Hfresh & Hrest)%RegisterAll_cons.
    destruct (IH _ Hrest) as [Hrun Hheap].
    simpl run. rewrite (register_fresh _ _ Hv Hfresh). simpl.
    split; [done |]. rewrite Hheap. simpl. by rewrite <-app_assoc.
Qed.

Lemma find_last σ l r :
  wf σ → indexed σ → heap σ !! l = Some r →
  (∀ l' r', (l < l')%nat → heap σ !! l' = Some r' → Name r' ≠ Name r) →
  find (Name r) σ = (addr l, true).
Proof.
  intros Hwf Hi Hl Hlast.
  assert (comps σ !! Iface r = Some (addr l)) as Hk.
  { apply indexed_lookup; [done |]. by exists l, r. }
  destruct (wf_named _ Hwf _ _ _ Hk Hl) as [q Hq].
  unfold find. rewrite map_index_byName, Hq.
  destruct (wf_names _ Hwf _ _ Hq) as (l0 & r0 & -> & Hl0 & Hname & _).
  do 2 f_equal.
  destruct (Nat.lt_trichotomy l0 l) as [Hlt|[->|Hlt]]; [|done|].
  - by destruct (indexed_last _ Hi _ _ Hq l r Hlt Hl).
  - by destruct (Hlast l0 r0 Hlt Hl0).
Qed.

(** A sequence of [Register] calls on the empty registry goes through
    without a panic exactly when every registration passes the validator
    and no two of them have the same interface; otherwise one of the
    calls panics. *)
Theorem RegisterAll_no_panic_iff cands :
  ((∃ σ, RegisterAll cands init = Ok σ) ↔
   Forall (λ r, verifyRegistration r = None) cands
   ∧ NoDup (Iface <$> cands))
  ∧ ((∃ msg, RegisterAll cands init = Panic msg) ↔
     ¬ (Forall (λ r, verifyRegistration r = None) cands
        ∧ NoDup (Iface <$> cands))).
Proof.
  assert (Hiff : (∃ σ, RegisterAll cands init = Ok σ) ↔
            Forall (λ r, verifyRegistration r = None) cands
            ∧ NoDup (Iface <$> cands)).
  { rewrite RegisterAll_Ok. split; [by intros (? & ? & _) |].
    intros [? ?]. split_and!; [done.. |]. apply Forall_forall. intros r _.
    unfold comps. simpl. by rewrite lookup_empty. }
  split; [done |]. rewrite <-Hiff.
  destruct (RegisterAll cands init) as [σ|msg].
  - split; [by intros [? ?] |]. intros Hnot. destruct Hnot. by exists σ.
  - split; [by intros _ [? ?] | by exists msg].
Qed.

(** After a sequence of [Register] calls that went through, the heap holds
    the registrations in the order of the calls, the slice of [Registered]
    has one element for each, each is stored under its interface, and
    [Find] on the name of a registration returns it when no later
    registration has the same name. *)
Theorem RegisterAll_lookup cands σ :
  RegisterAll cands init = Ok σ →
  run cands init = Ok σ
  ∧ heap σ = cands
  ∧ accepted cands = cands
  ∧ (∀ regs, Registered σ regs → length regs = length cands)
  ∧ (∀ i r, cands !! i = Some r →
       comps σ !! Iface r = Some (addr i) ∧ deref σ (addr i) = Ok r)
  ∧ (∀ i r, cands !! i = Some r →
       (∀ j r', (i < j)%nat → cands !! j = Some r' → Name r' ≠ Name r) →
       Find (Name r) σ = (addr i, true)).
Proof.
  intros [Hrun Hheap]%RegisterAll_run. simpl in Hheap.
  destruct (run_init_indexed cands) as (σ' & Hrun' & Hwf & Hi & Hacc).
  assert (σ' = σ) as -> by congruence.
  subst cands. split_and!; [done | done | done | | |].
  - intros regs Hregs.
    by rewrite (allComponents_length _ _ Hregs), indexed_size_comps.
  - intros i r Hr. split.
    + apply indexed_lookup; [done |]. by exists i, r.
    + unfold deref. by rewrite Hr.
  - intros i r Hr Hlast. by apply find_last.
Qed.

(** ** The configuration validator, for components with a configuration *)


(** After any sequence of [register] calls [ComponentConfigValidator]
    does not panic, and it returns nil exactly for a name that is not
    registered and for a component with a configuration that the parser
    accepts. *)
Theorem ComponentConfigValidator_nil_iff cands :
  ∃ σ, run cands init = Ok σ
    ∧ ∀ path cfg,
        ∃ res, ComponentConfigValidator path cfg σ = Ok res
          ∧ (res = None ↔
             (find path σ).2 = false
             ∨ ∃ info impl c,
                 deref σ (find path σ).1 = Ok info
                 ∧ Impl info = Some impl
                 ∧ config_Config impl = Some c
                 ∧ runtime_ParseConfigSection path "" {[ path := cfg ]} c
                   = None).
Proof.
  destruct (run_init_wf cands) as (σ & Hrun & Hwf). exists σ.
  split; [done |]. intros path cfg.
  unfold ComponentConfigValidator.
  destruct (find path σ) as [p ok] eqn:Hfind. destruct ok; simpl.
  2:{ exists None. split; [done |]. split; [by left | done]. }
  destruct (find_true_wf _ _ _ Hwf Hfind)
    as (l & info & impl & -> & Hd & _ & Himpl).
  rewrite Hd. simpl. rewrite Himpl.
  destruct (config_Config impl) as [c|] eqn:Hc.
  - destruct (runtime_ParseConfigSection path "" {[path := cfg]} c)
      as [e|] eqn:Hparse.
    + eexists. split; [done |]. split; [done |].
      intros [[=]|(info' & impl' & c' & [= <-] & Hi' & Hc' & Hp')].
      congruence.
    + exists None. split; [done |]. split; [|done]. intros _. right.
      by exists info, impl, c.
  - eexists. split; [done |]. split; [done |].
    intros [[=]|(info' & impl' & c' & [= <-] & Hi' & Hc' & _)]. congruence.
Qed.

(** ** The edges out of a component *)

Lemma filter_caller_edgesOf r k :
  filter (λ e, Caller e = k) (edgesOf r)
  = if decide (Iface r = k) then edgesOf r else [].
Proof.
  unfold edgesOf. destruct (Impl r) as [impl|]; [|by case_decide].
  induction (dependencies impl) as [|c cs IH]; [by case_decide |].
  csimpl. rewrite filter_cons, IH. simpl. by case_decide.
Qed.

Lemma filter_caller_bind (rs : list Registration) r :
  NoDup (Iface <$> rs) → r ∈ rs →
  filter (λ e, Caller e = Iface r) (rs ≫= edgesOf) = edgesOf r.
Proof.
  induction rs as [|r' rs IH]; [by intros _ ?%elem_of_nil |].
  csimpl. rewrite NoDup_cons, filter_app, filter_caller_edgesOf.
  intros [Hnot Hnd] [->|Hin]%elem_of_cons.
  - rewrite decide_True by done.
    assert (filter (λ e, Caller e = Iface r') (rs ≫= edgesOf) = []) as ->;
      [|by rewrite app_nil_r].
    clear IH Hnd. induction rs as [|r rs IH]; [done |].
    csimpl. rewrite filter_app, filter_caller_edgesOf.
    rewrite decide_False, IH; [done | |].
    + intros Hin. apply Hnot. csimpl. by apply list_elem_of_further.
    + intros Heq. apply Hnot. csimpl. rewrite Heq. apply list_elem_of_here.
  - rewrite decide_False, IH; [done.. |].
    intros Heq. apply Hnot. rewrite Heq. by apply list_elem_of_fmap_2.
Qed.

Lemma length_bind_edgesOf (rs : list Registration) :
  length (rs ≫= edgesOf) = sum_list_with (λ r, length (edgesOf r)) rs.
Proof.
  induction rs as [|r rs IH]; [done |]. csimpl.
  by rewrite length_app, IH.
Qed.

(** After any sequence of [register] calls, the edges of [CallGraph]
    whose caller is the interface of an accepted candidate are the edges of
    that candidate, one per dependency-reference field of its
    implementation; every edge has such a caller and a field of the
    caller's implementation behind it; and the number of edges is the
    number of dependency-reference fields of all accepted candidates. *)
Theorem CallGraph_out_edges cands :
  ∃ σ, run cands init = Ok σ
    ∧ ∀ out, CallGraph σ out →
        ∃ es, out = Ok es
          ∧ (∀ r, r ∈ accepted cands →
               filter (λ e, Caller e = Iface r) es ≡ₚ edgesOf r)
          ∧ (∀ e, e ∈ es →
               ∃ r impl callee,
                 r ∈ accepted cands ∧ Impl r = Some impl
                 ∧ callee ∈ dependencies impl
                 ∧ e = edge (Iface r) callee)
          ∧ length es
            = sum_list_with (λ r, length (edgesOf r)) (accepted cands).
Proof.
  destruct (run_init_indexed cands) as (σ & Hrun & Hwf & Hi & Hheap).
  exists σ. rewrite <-Hheap. split; [done |].
  intros out (es & -> & Hes)%CallGraph_registered; [|done].
  rewrite (indexed_registered _ Hi) in Hes.
  exists es. split; [done |]. split_and!.
  - intros r Hr. rewrite Hes.
    by rewrite filter_caller_bind by (by try apply indexed_NoDup).
  - intros e. rewrite Hes, list_elem_of_bind.
    intros (r & He & Hr). unfold edgesOf in He.
    destruct (Impl r) as [impl|] eqn:Himpl; [|by apply elem_of_nil in He].
    apply list_elem_of_fmap in He as (callee & -> & Hc).
    by exists r, impl, callee.
  - by rewrite Hes, length_bind_edgesOf.
Qed.

(** ** The order of the [Register] calls *)

Lemma lookup_iface_spec σ k r :
  indexed σ →
  comps σ !! k ≫= pointee σ = Some r ↔ r ∈ heap σ ∧ Iface r = k.
Proof.
  intros Hi. rewrite bind_Some. split.
  - intros (p & (l & r' & Hl & -> & ->)%indexed_lookup & Hp); [|done].
    simpl in Hp. assert (r' = r) as -> by congruence.
    split; [by eapply list_elem_of_lookup_2 | done].
  - intros [[l Hl]%list_elem_of_lookup_1 <-]. exists (addr l).
    split; [|done]. apply indexed_lookup; [done |]. by exists l, r.
Qed.

Lemma lookup_name_spec σ n r :
  wf σ → indexed σ → NoDup (Name <$> heap σ) →
  pointee σ (find n σ).1 = Some r ↔ r ∈ heap σ ∧ Name r = n.
Proof.
  intros Hwf Hi Hnd. split.
  - unfold find. rewrite map_index_byName.
    destruct (names σ !! n) as [p|] eqn:Hn; [|done]. simpl.
    destruct (wf_names _ Hwf _ _ Hn) as (l & r' & -> & Hl & Hname & _).
    simpl. rewrite Hl. intros [= <-].
    split; [by eapply list_elem_of_lookup_2 | done].
  - intros [[l Hl]%list_elem_of_lookup_1 <-].
    rewrite (find_last σ l r); [done.. |].
    intros l' r' Hlt Hl' Heq.
    assert (l = l'); [|lia].
    apply (proj1 (NoDup_alt _) Hnd l l' (Name r));
      rewrite list_lookup_fmap; [by rewrite Hl |].
    rewrite Hl'. simpl. by rewrite Heq.
Qed.

(** The registrations found by interface do not depend on the order of
    the [Register] calls, and neither do those found by name when the
    names are pairwise distinct: two sequences of calls with the same
    registrations in different orders both go through and answer every
    lookup with the same registration. *)
Theorem RegisterAll_order_independent cands cands' σ :
  cands ≡ₚ cands' →
  RegisterAll cands init = Ok σ →
  ∃ σ', RegisterAll cands' init = Ok σ'
    ∧ (∀ k, comps σ !! k ≫= pointee σ = comps σ' !! k ≫= pointee σ')
    ∧ (NoDup (Name <$> cands) →
       ∀ n, (find n σ).2 = (find n σ').2
            ∧ pointee σ (find n σ).1 = pointee σ' (find n σ').1).
Proof.
  intros Hperm Hσ.
  destruct (RegisterAll_Permutation _ _ _ _ Hperm Hσ) as [σ' Hσ'].
  exists σ'. split; [done |].
  apply RegisterAll_run in Hσ as [Hrun Hheap].
  apply RegisterAll_run in Hσ' as [Hrun' Hheap']. simpl in Hheap, Hheap'.
  destruct (run_init_indexed cands) as (σ0 & Hrun0 & Hwf & Hi & _).
  assert (σ0 = σ) as -> by congruence.
  destruct (run_init_indexed cands') as (σ0 & Hrun0' & Hwf' & Hi' & _).
  assert (σ0 = σ') as -> by congruence.
  split.
  - intros k. apply option_eq. intros r.
    rewrite !lookup_iface_spec, Hheap, Hheap' by done. by rewrite Hperm.
  - intros Hnd n.
    assert (Hptr : pointee σ (find n σ).1 = pointee σ' (find n σ').1).
    { apply option_eq. intros r.
      rewrite (lookup_name_spec σ) by (rewrite ?Hheap; done).
      rewrite (lookup_name_spec σ') by (rewrite ?Hheap', <-?Hperm; done).
      by rewrite Hheap, Hheap', Hperm. }
    split; [|done]. revert Hptr. unfold find. rewrite !map_index_byName.
    destruct (names σ !! n) as [p|] eqn:Hn,
      (names σ' !! n) as [p'|] eqn:Hn'; simpl; try done.
    + destruct (wf_names _ Hwf _ _ Hn) as (l & r & -> & Hl & _).
      simpl. by rewrite Hl.
    + destruct (wf_names _ Hwf' _ _ Hn') as (l & r & -> & Hl & _).
      simpl. by rewrite Hl.
Qed.

End Extras.

(** * The properties on the small program *)

Import Example.

(** Runs of the code on the three components. *)

Example register_regA :
  register regA init = Ok (None, stored regA init).
Proof. reflexivity. Qed.

Example CallGraph_run_ABC :
  (σ ← RegisterAll [regA; regB; regC] init; CallGraph_run σ)
  = Ok [edge (Some tC) tA; edge (Some tC) tA; edge (Some tB) tA].
Proof. vm_compute. reflexivity. Qed.

Example CallGraph_run_AB :
  (σ ← RegisterAll [regA; regB] init; CallGraph_run σ)
  = Ok [edge (Some tB) tA]
  ∧ (σ ← RegisterAll [regB; regA] init; CallGraph_run σ)
    = Ok [edge (Some tB) tA].
Proof. split; vm_compute; reflexivity. Qed.

Example CallGraph_run_A :
  (σ ← RegisterAll [regA] init; CallGraph_run σ) = Ok [].
Proof. vm_compute. reflexivity. Qed.

(** [register_conflict_keeps_first] on [regA], a registration of [regB]
    in between, and a second implementation of the interface of [regA]. *)
Lemma register_conflict_keeps_first_witness :
  (Iface regA = Iface regA'
   ∧ register regA init = Ok (None, stored regA init)
   ∧ run [regB] (stored regA init) = Ok (stored regB (stored regA init))
   ∧ (∀ r, r ∈ [regB] → Name r ≠ Name regA)
   ∧ verifyRegistration regA' = None)
  ∧ ∃ err σ3 l old new,
      register regA' (stored regB (stored regA init)) = Ok (Some err, σ3)
      ∧ σ3 = stored regB (stored regA init)
      ∧ find (Name regA) (stored regA init) = (addr l, true)
      ∧ deref (stored regA init) (addr l) = Ok regA
      ∧ comps σ3 !! Iface regA = Some (addr l)
      ∧ deref σ3 (addr l) = Ok regA
      ∧ find (Name regA) σ3 = (addr l, true)
      ∧ Impl regA = Some old ∧ Impl regA' = Some new
      ∧ err = errorString
                ("component " +:+ Name regA'
                 +:+ " already registered for type "
                 +:+ reflect.Type_String old +:+ " when registering "
                 +:+ reflect.Type_String new)
      ∧ mentions (Error err) (reflect.Type_String old)
      ∧ mentions (Error err) (reflect.Type_String new).
Proof.
  assert (Hmid : ∀ r, r ∈ [regB] → Name r ≠ Name regA).
  { intros r ->%list_elem_of_singleton. discriminate. }
  split; [split_and!; first [reflexivity | exact Hmid] |].
  destruct (proj1 (register_conflict_keeps_first regA regA' [regB])
              init (stored regA init) (stored regB (stored regA init))
              eq_refl eq_refl eq_refl)
    as (err & σ3 & l & Hreg & Hσ & Hf & Hd & Hk & Hd' & Hfind & Hconflict & _).
  destruct (Hconflict eq_refl) as (old & new & Ho & Hn & He & Hmo & Hmn).
  exists err, σ3, l, old, new.
  split_and!; first [assumption | exact (Hfind Hmid)].
Defined.

(** An [R2] with the interface of a registered [R1] that fails the
    validator does not get the conflict error: the validator runs first,
    and [register] returns its error, wrapped; the message does not hold
    the implementation type. *)
Lemma register_invalid_same_interface :
  Iface regA = Iface regNoLocal
  ∧ register regA init = Ok (None, stored regA init)
  ∧ register regNoLocal (stored regA init)
    = Ok (Some (wrapError
                  ("Register(" +:+ dquote +:+ "main/A" +:+ dquote
                   +:+ "): nil LocalStubFn")
                  (errorString "nil LocalStubFn")), stored regA init)
  ∧ (∀ msg, wrapError
              ("Register(" +:+ dquote +:+ "main/A" +:+ dquote
               +:+ "): nil LocalStubFn")
              (errorString "nil LocalStubFn") ≠ errorString msg)
  ∧ ¬ mentions
        ("Register(" +:+ dquote +:+ "main/A" +:+ dquote
         +:+ "): nil LocalStubFn")
        "main.a".
Proof.
  split_and!; [reflexivity.. | discriminate |].
  intros (pre & post & Hs).
  repeat (destruct pre as [|? pre]; [discriminate Hs |];
          injection Hs as _ Hs).
  destruct pre; discriminate Hs.
Qed.

(** The conflict error of that call. *)
Example register_regA'_conflict :
  verifyRegistration regA' = None
  ∧ register regA' (stored regA init)
    = Ok (Some (errorString
                  "component main/A2 already registered for type main.a when registering main.b"),
          stored regA init).
Proof. split; reflexivity. Qed.

(** A registration with a new interface and the name of a registered
    component is accepted and takes the entry of the name: the first
    component stays in the interface index and is in the name index no
    more. *)
Lemma name_index_overwritten :
  ∃ σ1 σ2,
    register regA init = Ok (None, σ1)
    ∧ register regD σ1 = Ok (None, σ2)
    ∧ run [regA; regD] init = Ok σ2
    ∧ Name regA = Name regD
    ∧ comps σ2 !! Some tA = Some (addr 0)
    ∧ (∀ n, names σ2 !! n ≠ Some (addr 0))
    ∧ ¬ in_sync σ2.
Proof.
  exists (stored regA init), (stored regD (stored regA init)).
  assert (Hnames : ∀ n : string,
            names (stored regD (stored regA init)) !! n ≠ Some (addr 0)).
  { intros n. rewrite !names_stored, lookup_insert.
    case_decide as Hn; [done |].
    rewrite lookup_insert_ne by done. unfold names. simpl.
    by rewrite lookup_empty. }
  split_and!; try reflexivity; [done |].
  intros Hsync. destruct (proj1 (Hsync (addr 0))) as [n Hn].
  - by exists (Some tA).
  - by apply (Hnames n).
Qed.

(** A candidate without a reflective stub factory is accepted and stored. *)
Lemma register_without_reflect_stub :
  ReflectStubFn regNoReflect = None
  ∧ register regNoReflect init = Ok (None, stored regNoReflect init)
  ∧ find (Name regNoReflect) (stored regNoReflect init) = (addr 0, true)
  ∧ deref (stored regNoReflect init) (addr 0) = Ok regNoReflect
  ∧ regNoReflect ∈ heap (stored regNoReflect init).
Proof. split_and!; try reflexivity. apply list_elem_of_here. Qed.

(** [register_missing_stub] on [regA] without its local stub factory. *)
Lemma register_missing_stub_witness :
  (LocalStubFn regNoLocal = None ∨ ClientStubFn regNoLocal = None
   ∨ ServerStubFn regNoLocal = None)
  ∧ (∀ σ, ∃ err, register regNoLocal σ = Ok (Some err, σ))
  ∧ (∀ cands, ∃ σ, run cands init = Ok σ ∧ (regNoLocal ∉ heap σ)
       ∧ (∀ k p, comps σ !! k = Some p → pointee σ p ≠ Some regNoLocal)
       ∧ (∀ n p, names σ !! n = Some p → pointee σ p ≠ Some regNoLocal)).
Proof.
  split; [left; reflexivity |].
  apply (register_missing_stub regNoLocal). left. reflexivity.
Defined.

(** The error [register] returns for an invalid candidate is not the error
    of the validator: it wraps it. *)
Lemma register_error_is_wrapped :
  verifyRegistration regNoLocal = Some (errorString "nil LocalStubFn")
  ∧ register regNoLocal init
    = Ok (Some (wrapError
                  ("Register(" +:+ dquote +:+ "main/A" +:+ dquote
                   +:+ "): nil LocalStubFn")
                  (errorString "nil LocalStubFn")), init)
  ∧ register regNoLocal init
    ≠ Ok (verifyRegistration regNoLocal, init).
Proof. split_and!; [reflexivity | reflexivity | discriminate]. Qed.

(** [register_invalid_wraps] on [regA] without its local stub factory. *)
Lemma register_invalid_wraps_witness :
  verifyRegistration regNoLocal = Some (errorString "nil LocalStubFn")
  ∧ ∃ err,
      register regNoLocal init = Ok (Some err, init)
      ∧ errors_Unwrap err = Some (errorString "nil LocalStubFn")
      ∧ Error err
        = "Register(" +:+ strconv_Quote (Name regNoLocal) +:+ "): "
          +:+ Error (errorString "nil LocalStubFn").
Proof.
  split; [reflexivity |].
  apply (register_invalid_wraps regNoLocal init (errorString "nil LocalStubFn")).
  reflexivity.
Defined.

(** [ComponentConfigValidator_unregistered] on the empty registry. *)
Lemma ComponentConfigValidator_unregistered_witness :
  (find "unregistered" init).2 = false
  ∧ ComponentConfigValidator "unregistered" "anything" init = Ok None.
Proof.
  split; [reflexivity |].
  apply (ComponentConfigValidator_unregistered init "unregistered" "anything").
  reflexivity.
Defined.


(** [register_any_name] for the empty name. *)
Lemma register_any_name_witness :
  (verifyRegistration regA = None ∧ comps init !! Iface regA = None)
  ∧ verifyRegistration (withName "" regA) = verifyRegistration regA
  ∧ ∃ σ' l,
      register (withName "" regA) init = Ok (None, σ')
      ∧ find "" σ' = (addr l, true)
      ∧ deref σ' (addr l) = Ok (withName "" regA).
Proof.
  split; [split; reflexivity |].
  apply (register_any_name init regA ""); reflexivity.
Defined.

(** [verifyRegistration_fail_fast] on a candidate that fails the third
    check and three later ones: the error is that of the third. *)
Lemma verifyRegistration_fail_fast_witness :
  (checks
   = take 2 checks
     ++ (λ reg : Registration, bool_decide (Impl reg = None),
         "missing implementation type") :: drop 3 checks
   ∧ Forall (λ c, c.1 regBad = false) (take 2 checks)
   ∧ bool_decide (Impl regBad = None) = true
   ∧ bool_decide (LocalStubFn regBad = None) = true)
  ∧ verifyRegistration regBad
    = Some (errors_New "missing implementation type").
Proof.
  assert (Hpre : Forall (λ c : (Registration → bool) * string,
                           c.1 regBad = false) (take 2 checks)).
  { repeat constructor. }
  split; [split_and!; [reflexivity | exact Hpre | reflexivity..] |].
  apply (proj1 (proj2 (verifyRegistration_fail_fast regBad))
           (take 2 checks)
           (λ reg : Registration, bool_decide (Impl reg = None))
           "missing implementation type" (drop 3 checks));
    [reflexivity | exact Hpre | reflexivity].
Defined.

(** [indexes_correspond] on two components with distinct names. *)
Lemma indexes_correspond_witness :
  ∃ σ, run [regA; regB] init = Ok σ
    ∧ names_distinct σ
    ∧ in_sync σ
    ∧ ∀ k l r, comps σ !! k = Some (addr l) → heap σ !! l = Some r →
               names σ !! Name r = Some (addr l).
Proof.
  destruct (indexes_correspond [regA; regB]) as (σ & Hrun & _ & _ & Hsync).
  exists σ. split; [exact Hrun |].
  assert (Hd : names_distinct σ).
  { change (run [regA; regB] init)
      with (Ok (stored regB (stored regA init))) in Hrun.
    injection Hrun as <-.
    assert (Hcases : ∀ k l r,
              comps (stored regB (stored regA init)) !! k = Some (addr l) →
              heap (stored regB (stored regA init)) !! l = Some r →
              (l = 0 ∧ r = regA) ∨ (l = 1 ∧ r = regB)).
    { intros k l r. rewrite !comps_stored, !lookup_insert_Some.
      intros [[_ [= <-]]|[_ [[_ [= <-]]|[_ Hk]]]].
      - intros [= <-]. by right.
      - intros [= <-]. by left.
      - unfold comps in Hk. simpl in Hk. by rewrite lookup_empty in Hk. }
    intros k k' l l' r r' Hk Hk' Hl Hl' Hname.
    destruct (Hcases _ _ _ Hk Hl) as [[-> ->]|[-> ->]],
      (Hcases _ _ _ Hk' Hl') as [[-> ->]|[-> ->]];
      first [reflexivity | discriminate Hname]. }
  split; [exact Hd |]. exact (Hsync Hd).
Defined.


(** [allComponents_snapshot] on a slice taken before [regB] is
    registered. *)
Lemma allComponents_snapshot_witness :
  ∃ σ regs,
    run [regA] init = Ok σ
    ∧ allComponents σ regs
    ∧ length regs = size (comps σ)
    ∧ ∃ err σ',
        register regB σ = Ok (err, σ')
        ∧ Forall (λ p, ∃ r, deref σ p = Ok r ∧ deref σ' p = Ok r) regs
        ∧ (err = None →
           ∀ regs', allComponents σ' regs' → length regs' = S (length regs)).
Proof.
  destruct (allComponents_snapshot [regA]) as (σ & Hrun & Hall).
  exists σ, (allComponents_run σ). split; [exact Hrun |].
  split; [apply allComponents_run_ok |].
  apply (Hall (allComponents_run σ) regB), allComponents_run_ok.
Defined.

(** [CallGraph_edges] on [regA] and [regB], registered in the two orders,
    and on [regC], whose two fields refer to [A]. *)
Lemma CallGraph_edges_witness :
  (([regA; regB] ≡ₚ [regB; regA]
    ∧ RegisterAll [regA; regB] init = Ok (stored regB (stored regA init)))
   ∧ registered (stored regB (stored regA init)) ≡ₚ [regA; regB]
   ∧ ∃ σ',
       RegisterAll [regB; regA] init = Ok σ'
       ∧ ∀ out out',
           CallGraph (stored regB (stored regA init)) out →
           CallGraph σ' out' →
           ∃ es es', out = Ok es ∧ out' = Ok es' ∧ es ≡ₚ es')
  ∧ ∃ σ es,
      run [regA; regB; regC] init = Ok σ
      ∧ CallGraph σ (Ok es)
      ∧ es ≡ₚ registered σ ≫= edgesOf
      ∧ (2 ≤ length (filter (λ e, e = edge (Some tC) tA) es))%nat.
Proof.
  split.
  - split; [split; [apply perm_swap | reflexivity] |].
    apply (proj1 (proj2 CallGraph_edges) [regA; regB] [regB; regA]);
      [apply perm_swap | reflexivity].
  - destruct (proj1 CallGraph_edges [regA; regB; regC])
      as (σ & Hrun & Hcg & Hall).
    destruct (Hall _ Hcg) as (es & Hes & Hperm & _ & Htwice).
    exists σ, es. split; [exact Hrun |].
    split; [rewrite <-Hes; exact Hcg |]. split; [exact Hperm |].
    assert (HC : regC ∈ registered σ).
    { change (run [regA; regB; regC] init)
        with (Ok (stored regC (stored regB (stored regA init)))) in Hrun.
      injection Hrun as <-.
      apply list_elem_of_In. vm_compute. tauto. }
    assert (HR : dependencyRef tRefA tA).
    { apply refTarget_dependencyRef. reflexivity. }
    apply (Htwice regC tc 0 1 (reflect.mkStructField "x" tRefA)
             (reflect.mkStructField "y" tRefA) tA HC);
      [reflexivity | discriminate | reflexivity | reflexivity | exact HR
      | exact HR].
Defined.

(** ** The further properties on the small program *)

(** [register_frame] on the registration of [regB] after [regA]. *)
Lemma register_frame_witness :
  register regB (stored regA init)
  = Ok (None, stored regB (stored regA init))
  ∧ heap (stored regA init) `prefix_of` heap (stored regB (stored regA init))
  ∧ comps (stored regA init) ⊆ comps (stored regB (stored regA init))
  ∧ find "main/A" (stored regB (stored regA init))
    = find "main/A" (stored regA init)
  ∧ find "main/B" (stored regB (stored regA init)) = (addr 1, true)
  ∧ deref (stored regB (stored regA init)) (addr 1) = Ok regB.
Proof.
  split; [reflexivity |].
  destruct (register_frame regB (stored regA init) None
              (stored regB (stored regA init)) eq_refl)
    as (_ & Hheap & Hcomps & Hfind & _ & Hnew).
  destruct (Hnew eq_refl) as (_ & Hf & Hd & _).
  split_and!; [exact Hheap | exact Hcomps | | exact Hf | exact Hd].
  apply Hfind. discriminate.
Defined.

(** [register_error_unwrap] on a candidate without a local stub factory. *)
Lemma register_error_unwrap_witness :
  register regNoLocal init
  = Ok (Some (wrapError
                ("Register(" +:+ dquote +:+ "main/A" +:+ dquote
                 +:+ "): nil LocalStubFn")
                (errorString "nil LocalStubFn")), init)
  ∧ errors_Unwrap
      (wrapError
         ("Register(" +:+ dquote +:+ "main/A" +:+ dquote
          +:+ "): nil LocalStubFn")
         (errorString "nil LocalStubFn"))
    = verifyRegistration regNoLocal
  ∧ mentions
      ("Register(" +:+ dquote +:+ "main/A" +:+ dquote
       +:+ "): nil LocalStubFn")
      (strconv_Quote (Name regNoLocal)).
Proof.
  split; [reflexivity |].
  destruct (register_error_unwrap regNoLocal init _ init eq_refl)
    as (Hunwrap & Hquoted & _).
  split; [exact Hunwrap |]. apply Hquoted. by eexists.
Defined.

(** [RegisterAll_lookup] on [regA] and [regB]. *)
Lemma RegisterAll_lookup_witness :
  RegisterAll [regA; regB] init = Ok (stored regB (stored regA init))
  ∧ heap (stored regB (stored regA init)) = [regA; regB]
  ∧ (∀ regs, Registered (stored regB (stored regA init)) regs →
             length regs = 2)
  ∧ Find "main/B" (stored regB (stored regA init)) = (addr 1, true)
  ∧ Find "main/A" (stored regB (stored regA init)) = (addr 0, true).
Proof.
  split; [reflexivity |].
  destruct (RegisterAll_lookup [regA; regB] (stored regB (stored regA init))
              eq_refl) as (_ & Hheap & _ & Hlen & _ & Hfind).
  split_and!; [exact Hheap | exact Hlen | |].
  - apply (Hfind 1 regB eq_refl). intros [|[|j]] r' Hlt; [lia | lia |].
    discriminate.
  - apply (Hfind 0 regA eq_refl). intros [|[|[|j]]] r' Hlt; [lia | | |].
    + intros [= <-]. discriminate.
    + discriminate.
    + discriminate.
Defined.

(** [RegisterAll_order_independent] on [regA] and [regB] in the two
    orders. *)
Lemma RegisterAll_order_independent_witness :
  ([regA; regB] ≡ₚ [regB; regA]
   ∧ RegisterAll [regA; regB] init = Ok (stored regB (stored regA init))
   ∧ NoDup (Name <$> [regA; regB]))
  ∧ ∃ σ',
      RegisterAll [regB; regA] init = Ok σ'
      ∧ (∀ k, comps (stored regB (stored regA init)) !! k
              ≫= pointee (stored regB (stored regA init))
              = comps σ' !! k ≫= pointee σ')
      ∧ ∀ n, (find n (stored regB (stored regA init))).2 = (find n σ').2
             ∧ pointee (stored regB (stored regA init))
                 (find n (stored regB (stored regA init))).1
               = pointee σ' (find n σ').1.
Proof.
  assert (Hnd : NoDup (Name <$> [regA; regB])).
  { apply NoDup_cons. split; [|apply NoDup_singleton].
    intros [=]%list_elem_of_singleton. }
  split; [split_and!; [apply perm_swap | reflexivity | exact Hnd] |].
  destruct (RegisterAll_order_independent [regA; regB] [regB; regA]
              (stored regB (stored regA init)) (perm_swap _ _ _) eq_refl)
    as (σ' & Hσ' & Hiface & Hname).
  exists σ'. split_and!; [exact Hσ' | exact Hiface | exact (Hname Hnd)].
Defined.


(** [CallGraph_out_edges] on the three components. *)
Lemma CallGraph_out_edges_witness :
  ∃ σ es,
    run [regA; regB; regC] init = Ok σ
    ∧ CallGraph σ (Ok es)
    ∧ filter (λ e, Caller e = Some tC) es ≡ₚ [edge (Some tC) tA; edge (Some tC) tA]
    ∧ filter (λ e, Caller e = Some tA) es ≡ₚ []
    ∧ length es = 3.
Proof.
  destruct (CallGraph_out_edges [regA; regB; regC]) as (σ & Hrun & Hall).
  assert (Hσ : σ = stored regC (stored regB (stored regA init))).
  { change (run [regA; regB; regC] init)
      with (Ok (stored regC (stored regB (stored regA init)))) in Hrun.
    by injection Hrun. }
  destruct (Hall (CallGraph_run σ) (CallGraph_run_ok σ))
    as (es & Hes & Hout & _ & Hlen).
  exists σ, es. split; [exact Hrun |].
  split; [rewrite <-Hes; apply CallGraph_run_ok |].
  split_and!.
  - apply (Hout regC). apply list_elem_of_In. vm_compute. tauto.
  - apply (Hout regA). apply list_elem_of_In. vm_compute. tauto.
  - exact Hlen.
Defined.

(** [run_first_wins] on a sequence with a second implementation of the
    interface of [regA] and an invalid candidate. *)
Lemma run_first_wins_witness :
  ∃ σ,
    run [regA; regA'; regNoLocal; regB] init = Ok σ
    ∧ heap σ = [regA; regB]
    ∧ comps σ !! Some tA = Some (addr 0)
    ∧ comps σ !! Some tB = Some (addr 1)
    ∧ comps σ !! Some tC = None
    ∧ size (comps σ) = 2.
Proof.
  destruct (run_first_wins [regA; regA'; regNoLocal; regB])
    as (σ & Hrun & Hheap & _ & Hidx & Hnone & _ & Hsize & _).
  exists σ. split_and!; [exact Hrun | exact Hheap | | | | exact Hsize].
  - apply (Hidx 0 regA). reflexivity.
  - apply (Hidx 1 regB). reflexivity.
  - apply Hnone.
    intros [[=]|[[=]|[]%elem_of_nil]%elem_of_cons]%elem_of_cons.
Defined.

(** [find_last_wins] on [regA] and [regD], which have the same name: the
    name is found at [regD]. *)
Lemma find_last_wins_witness :
  ∃ σ,
    run [regA; regD] init = Ok σ
    ∧ find "main/A" σ = (addr 1, true)
    ∧ find "main/B" σ = (nil, false).
Proof.
  destruct (find_last_wins [regA; regD]) as (σ & Hrun & Hfind).
  exists σ. split; [exact Hrun |]. split.
  - apply (Hfind "main/A"). exists regD. split_and!; [reflexivity.. |].
    intros [|[|l']] r' Hlt; [lia | lia | discriminate].
  - apply (Hfind "main/B").
    intros r [->|[->|[]%elem_of_nil]%elem_of_cons]%elem_of_cons;
      discriminate.
Defined.

(** [Registered_each_once] on the three components. *)
Lemma Registered_each_once_witness :
  ∃ σ regs,
    run [regA; regB; regC] init = Ok σ
    ∧ Registered σ regs
    ∧ regs ≡ₚ [addr 0; addr 1; addr 2]
    ∧ NoDup regs.
Proof.
  destruct (Registered_each_once [regA; regB; regC]) as (σ & Hrun & Hall).
  destruct (Hall (allComponents_run σ) (allComponents_run_ok σ))
    as (Hperm & Hnd & _).
  exists σ, (allComponents_run σ).
  split_and!; [exact Hrun | apply allComponents_run_ok | exact Hperm
              | exact Hnd].
Defined.

(** [RegisterAll_no_panic_iff] on two components, which are registered,
    and on two implementations of one interface, where a call panics. *)
Lemma RegisterAll_no_panic_iff_witness :
  (Forall (λ r, verifyRegistration r = None) [regA; regB]
   ∧ NoDup (Iface <$> [regA; regB]))
  ∧ (∃ σ, RegisterAll [regA; regB] init = Ok σ)
  ∧ ¬ NoDup (Iface <$> [regA; regA'])
  ∧ ∃ msg, RegisterAll [regA; regA'] init = Panic msg.
Proof.
  assert (Hok : Forall (λ r, verifyRegistration r = None) [regA; regB]
                ∧ NoDup (Iface <$> [regA; regB])).
  { split; [by repeat constructor |].
    apply NoDup_cons. split; [|apply NoDup_singleton].
    intros [=]%list_elem_of_singleton. }
  assert (Hdup : ¬ NoDup (Iface <$> [regA; regA'])).
  { intros [Hnot _]%NoDup_cons. apply Hnot, list_elem_of_here. }
  split; [exact Hok |].
  split; [exact (proj2 (proj1 (RegisterAll_no_panic_iff [regA; regB])) Hok) |].
  split; [exact Hdup |].
  apply (proj2 (proj2 (RegisterAll_no_panic_iff [regA; regA']))).
  intros [_ Hnd]. exact (Hdup Hnd).
Defined.
